(** * styled-system-dark-mode: a shallow embedding of src/src/utils.js and
      src/src/index.js.

    Modelling conventions.
    - JS strings are [String.string] (ASCII characters).
    - A JS plain object is an association list [list (string * A)] in
      [Object.keys] order; a well-formed object has distinct keys.  Keys are
      assumed not to name an [Object.prototype] member, so [o[k]] is the own
      property or [undefined].  Insertion order is [Object.keys] order for
      keys that are not array indices; the statements about key order carry
      that restriction as a hypothesis ([index_like]).
    - [{...acc, [k]: v}] is [set_key acc k v]: an existing key keeps its
      position and takes the new value, a new key is appended.
    - [Object.keys(o).reduce(step, {})] is [fold_left step o []]. *)

From Stdlib Require Import String Ascii List Bool Arith Lia ZArith.
From Stdlib Require Import Numbers.DecimalString.
Import ListNotations.
Open Scope string_scope.
Set Warnings "-register-all".

(* ------------------------------------------------------------------ *)
(** ** Strings *)

(** [String.prototype.toLowerCase] on ASCII. *)
Definition lower_ascii (c : ascii) : ascii :=
  let n := nat_of_ascii c in
  if ((65 <=? n) && (n <=? 90))%nat then ascii_of_nat (n + 32)%nat else c.

Fixpoint toLowerCase (s : string) : string :=
  match s with
  | EmptyString => EmptyString
  | String c r => String (lower_ascii c) (toLowerCase r)
  end.

(** [Array.prototype.join(sep)] on an array of strings. *)
Fixpoint join (sep : string) (l : list string) : string :=
  match l with
  | [] => ""
  | [x] => x
  | x :: r => x ++ sep ++ join sep r
  end.

(** The character class [[A-Z_ ]]. *)
Definition is_boundary (c : ascii) : bool :=
  let n := nat_of_ascii c in
  (((65 <=? n) && (n <=? 90)) || (n =? 95) || (n =? 32))%nat.

(** The zero-width regular expression [/(?=[A-Z_ ])/] matches at position
    [q] of [s] iff the character at [q] is in the class. *)
Definition lookahead_at (s : string) (q : nat) : bool :=
  match String.get q s with
  | Some c => is_boundary c
  | None => false
  end.

(** [String.prototype.substring(p, q)] for [p <= q <= length]. *)
Definition slice (s : string) (p q : nat) : string := String.substring p (q - p) s.

(** The loop of [RegExp.prototype[Symbol.split]] (ECMA-262 22.2.6.14) for a
    regular expression whose matches are all empty (a lookahead): at [q] a
    match ends at [e = q]; when [e = p] the index only advances, otherwise the
    segment [S[p..q)] is pushed and [p := e].  [fuel] bounds the iterations. *)
Fixpoint split_loop (S : string) (p q : nat) (fuel : nat) : list string :=
  match fuel with
  | O => [slice S p (String.length S)]
  | Datatypes.S fuel' =>
      if Nat.ltb q (String.length S) then
        if lookahead_at S q then
          if Nat.eqb q p then split_loop S p (Datatypes.S q) fuel'
          else slice S p q :: split_loop S q q fuel'
        else split_loop S p (Datatypes.S q) fuel'
      else [slice S p (String.length S)]
  end.

(** [S.split(/(?=[A-Z_ ])/g)]; on the empty string the expression does not
    match, so the result is [[""]]. *)
Definition split_boundary (S : string) : list string :=
  if Nat.eqb (String.length S) 0 then
    (if lookahead_at S 0 then [] else [S])
  else split_loop S 0 0 (2 * String.length S + 1).

(** utils.js, line 7. *)
Definition jsNameToCssName (name : string) : string :=
  toLowerCase (join "-" (split_boundary name)).

Example jsNameToCssName_fontWeight : jsNameToCssName "fontWeight" = "font-weight".
Proof. reflexivity. Qed.
Example jsNameToCssName_title : jsNameToCssName "Title Case" = "title- -case".
Proof. reflexivity. Qed.
Example jsNameToCssName_bg : jsNameToCssName "bg_color" = "bg-_color".
Proof. reflexivity. Qed.

(** The naming rule read as one pass over the name: a hyphen before every
    character of [[A-Z_ ]] that is not the first; [toLowerCase] after. *)
Fixpoint hyphenate_boundaries (atStart : bool) (s : string) : string :=
  match s with
  | EmptyString => EmptyString
  | String c r =>
      if is_boundary c && negb atStart then String "-" (String c (hyphenate_boundaries false r))
      else String c (hyphenate_boundaries false r)
  end.

(** No character of the name is in [[A-Z_ ]]. *)
Fixpoint no_boundary (s : string) : bool :=
  match s with
  | EmptyString => true
  | String c r => negb (is_boundary c) && no_boundary r
  end.

(* ------------------------------------------------------------------ *)
(** ** Objects *)

(** [{...acc, [k]: v}]. *)
Fixpoint set_key {A} (acc : list (string * A)) (k : string) (v : A) : list (string * A) :=
  match acc with
  | [] => [(k, v)]
  | (k', v') :: r => if String.eqb k k' then (k', v) :: r else (k', v') :: set_key r k v
  end.

(** [{...acc, ...o}]. *)
Definition spread {A} (acc o : list (string * A)) : list (string * A) :=
  fold_left (fun a kv => set_key a (fst kv) (snd kv)) o acc.

(** [o[k]] on an object; [None] is [undefined]. *)
Fixpoint lookup {A} (o : list (string * A)) (k : string) : option A :=
  match o with
  | [] => None
  | (k', v) :: r => if String.eqb k k' then Some v else lookup r k
  end.

Definition keys {A} (o : list (string * A)) : list string := map fst o.

(** A ThemeTree: string leaves and nested objects. *)
Inductive theme : Type :=
| TStr (s : string)
| TObj (o : list (string * theme)).

(** One entry of a variable tree, the object [{ value, var, refVar }]
    built by [makeObjectVariables]: [value] is a string or a nested
    variable tree. *)
Inductive vnode : Type :=
| VLeaf (value : string) (var refVar : string)
| VSub (value : list (string * vnode)) (var refVar : string).

Definition var_of (n : vnode) : string :=
  match n with VLeaf _ x _ | VSub _ x _ => x end.

Definition refVar_of (n : vnode) : string :=
  match n with VLeaf _ _ r | VSub _ _ r => r end.

(* ------------------------------------------------------------------ *)
(** ** utils.js *)

(** [prefix ? `${prefix}-` : ''] and [suffix ? `-${suffix}` : ''];
    an absent prefix or suffix is the (falsy) empty string. *)
Definition prefixStr_of (prefix : string) : string :=
  if String.eqb prefix "" then "" else prefix ++ "-".
Definition suffixStr_of (suffix : string) : string :=
  if String.eqb suffix "" then "" else "-" ++ suffix.

(** utils.js, lines 19-33.  [obj] is an object ([TObj]); the recursive call
    is made only on non-string values. *)
Fixpoint makeObjectVariables_t (obj : theme) (prefix suffix : string) : list (string * vnode) :=
  match obj with
  | TStr _ => []
  | TObj kvs =>
      fold_left
        (fun accum kv =>
           let prefixStr := prefixStr_of prefix in
           let suffixStr := suffixStr_of suffix in
           let name := prefixStr ++ jsNameToCssName (fst kv) ++ suffixStr in
           set_key accum (fst kv)
             (match snd kv with
              | TStr s => VLeaf s ("--" ++ name) ("var(--" ++ name ++ ")")
              | TObj _ =>
                  VSub (makeObjectVariables_t (snd kv) (prefixStr ++ fst kv) suffix)
                    ("--" ++ name) ("var(--" ++ name ++ ")")
              end))
        kvs []
  end.

Definition makeObjectVariables (obj : list (string * theme)) (prefix suffix : string) :=
  makeObjectVariables_t (TObj obj) prefix suffix.

(** The JS functions below recurse on the value of a key; Rocq's guard
    condition wants the recursion on the element type, so each is a
    [Fixpoint] on one entry's node applied to [obj] through a wrapping
    node, whose own [var] and [refVar] are never read. *)

(** utils.js, lines 41-48: keyed by [obj[key].var]. *)
Fixpoint varColorMap_n (n : vnode) : list (string * theme) :=
  match n with
  | VLeaf _ _ _ => []
  | VSub obj _ _ =>
      fold_left
        (fun accum kv =>
           match snd kv with
           | VLeaf val x _ => set_key accum x (TStr val)
           | VSub _ x _ => set_key accum x (TObj (varColorMap_n (snd kv)))
           end)
        obj []
  end.

Definition varColorMap (obj : list (string * vnode)) := varColorMap_n (VSub obj "" "").

(** utils.js, lines 56-60: keyed by the original key. *)
Fixpoint keyVarMap_n (n : vnode) : list (string * theme) :=
  match n with
  | VLeaf _ _ _ => []
  | VSub obj _ _ =>
      fold_left
        (fun accum kv =>
           match snd kv with
           | VLeaf _ _ r => set_key accum (fst kv) (TStr r)
           | VSub _ _ _ => set_key accum (fst kv) (TObj (keyVarMap_n (snd kv)))
           end)
        obj []
  end.

Definition keyVarMap (obj : list (string * vnode)) := keyVarMap_n (VSub obj "" "").

(** utils.js, lines 68-72. *)
Fixpoint treeWalk_t (t : theme) : list (string * string) :=
  match t with
  | TStr _ => []
  | TObj obj =>
      fold_left
        (fun accum kv =>
           spread accum
             (match snd kv with
              | TStr s => [(fst kv, s)]
              | TObj _ => treeWalk_t (snd kv)
              end))
        obj []
  end.

Definition treeWalk (obj : list (string * theme)) := treeWalk_t (TObj obj).

(** utils.js, lines 80-83. *)
Definition objectToCss (obj : list (string * string)) : string :=
  join "
" (map (fun kv => fst kv ++ ": " ++ snd kv ++ ";") obj).

(* ------------------------------------------------------------------ *)
(** ** index.js *)

(** [String.prototype.substring(start, end)]: both indices clamped to
    [[0, length]], swapped when [start > end]. *)
Definition substring (s : string) (start end_ : Z) : string :=
  let len := Z.of_nat (String.length s) in
  let a := Z.min (Z.max start 0) len in
  let b := Z.min (Z.max end_ 0) len in
  let lo := Z.to_nat (Z.min a b) in
  let hi := Z.to_nat (Z.max a b) in
  String.substring lo (hi - lo) s.

(** The part of [window] the resolver reads:
    [window.getComputedStyle(window.document.documentElement).getPropertyValue]. *)
Definition Window := string -> string.

(** index.js, lines 27-36.  [window] is [None] when [typeof window ===
    'undefined']; a result [None] is [undefined]. *)
Definition resolveFactory (defaultVars : list (string * string))
    (window : option Window) (value : string) : option string :=
  if negb (String.eqb (substring value 0 5) "var(--") then Some value
  else
    let lookupVal := substring value 4 (Z.of_nat (String.length value) - 1) in
    match window with
    | None => lookup defaultVars lookupVal
    | Some getPropertyValue => Some (getPropertyValue lookupVal)
    end.

(** The object returned by the default export.  [DarkModeProvider] renders
    [<style>{css}</style>] before its children; it is represented by the
    [css] it embeds. *)
Record darkMode := {
  vars : list (string * theme);
  css : string;
  resolve : option Window -> string -> option string;
  DarkModeProvider_css : string
}.

(** [x || {}] for an optional ThemeTree argument. *)
Definition or_empty (x : option (list (string * theme))) : list (string * theme) :=
  match x with Some o => o | None => [] end.

(** index.js, lines 47-64. *)
Definition makeDarkMode (dark light : option (list (string * theme))) : darkMode :=
  let darkModeVars := makeObjectVariables (or_empty dark) "" "" in
  let lightModeVars := makeObjectVariables (or_empty light) "" "" in
  let vars := spread (spread [] (keyVarMap darkModeVars)) (keyVarMap lightModeVars) in
  let darkModeCss := objectToCss (treeWalk (varColorMap darkModeVars)) in
  let lightModeCss := objectToCss (treeWalk (varColorMap lightModeVars)) in
  let css := ":root { " ++ lightModeCss ++ " }"
    ++ "@media (prefers-color-scheme: dark){ :root { " ++ darkModeCss ++ " } }" in
  {| vars := vars;
     css := css;
     resolve := resolveFactory (treeWalk (varColorMap lightModeVars));
     DarkModeProvider_css := css |}.

Definition readme_light : list (string * theme) :=
  [("text", TStr "black"); ("bg", TStr "white");
   ("grad", TObj [("skeleton", TStr "lg-light")])].
Definition readme_dark : list (string * theme) :=
  [("text", TStr "white"); ("bg", TStr "gray");
   ("grad", TObj [("skeleton", TStr "lg-dark")])].

Example readme_vars :
  vars (makeDarkMode (Some readme_dark) (Some readme_light)) =
  [("text", TStr "var(--text)"); ("bg", TStr "var(--bg)");
   ("grad", TObj [("skeleton", TStr "var(--grad-skeleton)")])].
Proof. reflexivity. Qed.

Example readme_css :
  css (makeDarkMode (Some readme_dark) (Some readme_light)) =
  ":root { --text: black;
--bg: white;
--grad-skeleton: lg-light; }@media (prefers-color-scheme: dark){ :root { --text: white;
--bg: gray;
--grad-skeleton: lg-dark; } }".
Proof. reflexivity. Qed.

(* ------------------------------------------------------------------ *)
(** ** mergeThemes (index.js, lines 74-80) *)

(** JS values reaching [mergeThemes]. *)
Inductive js : Type :=
| JUndef
| JNull
| JBool (b : bool)
| JNum (n : Z)
| JStr (s : string)
| JObj (o : list (string * js)).

(** A thrown [TypeError] is [None]. *)
Definition bind {A B} (m : option A) (f : A -> option B) : option B :=
  match m with Some a => f a | None => None end.
Notation "x <- m ;; k" := (bind m (fun x => k)) (at level 61, m at next level, right associativity).

Definition truthy (v : js) : bool :=
  match v with
  | JUndef | JNull => false
  | JBool b => b
  | JNum n => negb (Z.eqb n 0)
  | JStr s => negb (String.eqb s "")
  | JObj _ => true
  end.

Definition string_of_nat (n : nat) : string := NilEmpty.string_of_uint (Nat.to_uint n).

(** The own properties of a string primitive: its indexed characters. *)
Fixpoint string_props (i : nat) (s : string) : list (string * js) :=
  match s with
  | EmptyString => []
  | String c r => (string_of_nat i, JStr (String c EmptyString)) :: string_props (Datatypes.S i) r
  end.

(** [{...acc, ...x}] for any value [x]: [undefined], [null], booleans and
    numbers contribute nothing. *)
Definition spread_js (acc : list (string * js)) (x : js) : list (string * js) :=
  match x with
  | JObj o => spread acc o
  | JStr s => spread acc (string_props 0 s)
  | _ => acc
  end.

(** [x[k]]: reading a property of [undefined] or [null] throws. *)
Definition get (x : js) (k : string) : option js :=
  match x with
  | JUndef | JNull => None
  | JObj o => Some (match lookup o k with Some v => v | None => JUndef end)
  | JStr s =>
      if String.eqb k "length" then Some (JNum (Z.of_nat (String.length s)))
      else Some (match lookup (string_props 0 s) k with Some v => v | None => JUndef end)
  | JBool _ | JNum _ => Some JUndef
  end.

(** [mergeThemes(oldThemeObject, newThemeObject)].  For a key, the value of
    the reducer is
    [newThemeObject[key] instanceof Object
       ? mergeThemes(oldThemeObject[key], newThemeObject[key] || {})
       : newThemeObject[key] || oldThemeObject[key]];
    when [newThemeObject] is an object, [newThemeObject[key]] is found by
    the inner [fix], which makes the recursive call on a subterm; an object
    is truthy, so [newThemeObject[key] || {}] is [newThemeObject[key]]. *)
Fixpoint mergeThemes (oldThemeObject newThemeObject : js) {struct newThemeObject} : option js :=
  let value_at (key : string) : option js :=
    match newThemeObject with
    | JObj kvs =>
        (fix find (l : list (string * js)) : option js :=
           match l with
           | [] => get oldThemeObject key
           | (k', v) :: r =>
               if String.eqb key k' then
                 match v with
                 | JObj _ => o <- get oldThemeObject key ;; mergeThemes o v
                 | _ => if truthy v then Some v else get oldThemeObject key
                 end
               else find r
           end) kvs
    | _ =>
        nv <- get newThemeObject key ;;
        if truthy nv then Some nv else get oldThemeObject key
    end in
  res <- fold_left
           (fun accum key =>
              a <- accum ;;
              v <- value_at key ;;
              Some (set_key a key v))
           (keys (spread_js (spread_js [] oldThemeObject) newThemeObject))
           (Some []) ;;
  Some (JObj res).

(* ------------------------------------------------------------------ *)
(** ** Derived views used in the statements *)

(** The leaves of a variable tree in depth-first order, as
    (generated property name, value). *)
Fixpoint vleaves_n (n : vnode) : list (string * string) :=
  match n with
  | VLeaf v x _ => [(x, v)]
  | VSub o _ _ => flat_map (fun kv => vleaves_n (snd kv)) o
  end.
Definition vleaves (o : list (string * vnode)) := flat_map (fun kv => vleaves_n (snd kv)) o.

(** Every generated property name of a variable tree (subtrees and leaves),
    depth-first. *)
Fixpoint all_vars_n (n : vnode) : list string :=
  match n with
  | VLeaf _ x _ => [x]
  | VSub o x _ => x :: flat_map (fun kv => all_vars_n (snd kv)) o
  end.
Definition all_vars (o : list (string * vnode)) := flat_map (fun kv => all_vars_n (snd kv)) o.

(** The leaf values of a ThemeTree, depth-first. *)
Fixpoint theme_values (t : theme) : list string :=
  match t with
  | TStr s => [s]
  | TObj o => flat_map (fun kv => theme_values (snd kv)) o
  end.

(** Key structure of a tree: keys at every level, leaves forgotten. *)
Inductive shape : Type :=
| SLeaf
| SObj (o : list (string * shape)).

Fixpoint theme_shape (t : theme) : shape :=
  match t with
  | TStr _ => SLeaf
  | TObj o => SObj (map (fun kv => (fst kv, theme_shape (snd kv))) o)
  end.

Fixpoint nodupb (l : list string) : bool :=
  match l with
  | [] => true
  | x :: r => negb (existsb (String.eqb x) r) && nodupb r
  end.

(** A ThemeTree as a JS object can hold it: distinct keys at every level. *)
Fixpoint wfb (t : theme) : bool :=
  match t with
  | TStr _ => true
  | TObj o => nodupb (keys o) && forallb (fun kv => wfb (snd kv)) o
  end.

Definition is_leaf (t : theme) : bool := match t with TStr _ => true | TObj _ => false end.

Fixpoint no_hyphen (s : string) : bool :=
  match s with
  | EmptyString => true
  | String c r => negb (Ascii.eqb c "-"%char) && no_hyphen r
  end.

(** Naming discipline of one level of a ThemeTree: distinct keys; the
    converted names of the leaves distinct; a key holding a subtree is
    non-empty and has no [-]; no leaf's converted name begins with a
    sibling subtree's key followed by [-]. *)
Definition level_ok (o : list (string * theme)) : bool :=
  nodupb (keys o)
  && nodupb (map (fun kv => jsNameToCssName (fst kv)) (filter (fun kv => is_leaf (snd kv)) o))
  && forallb (fun kv => is_leaf (snd kv) || (negb (String.eqb (fst kv) "") && no_hyphen (fst kv))) o
  && forallb (fun x => forallb (fun y =>
        negb (is_leaf (snd x)) || is_leaf (snd y)
        || negb (String.prefix (fst y ++ "-") (jsNameToCssName (fst x)))) o) o.

(** The discipline at every level. *)
Fixpoint names_ok (t : theme) : bool :=
  match t with
  | TStr _ => true
  | TObj o => level_ok o && forallb (fun kv => names_ok (snd kv)) o
  end.

(** The part of each leaf's generated name below a level, depth-first: a
    leaf contributes its converted key, a subtree its key, [-] and the
    parts below it. *)
Fixpoint leaf_bodies (t : theme) : list string :=
  match t with
  | TStr _ => []
  | TObj o =>
      flat_map (fun kv => match snd kv with
                          | TStr _ => [jsNameToCssName (fst kv)]
                          | TObj _ => map (fun b => fst kv ++ "-" ++ b) (leaf_bodies (snd kv))
                          end) o
  end.

(** The flattened value map of one variant, the declaration source of its
    stylesheet block. *)
Definition flat_decls (x : option (list (string * theme))) : list (string * string) :=
  treeWalk (varColorMap (makeObjectVariables (or_empty x) "" "")).

Definition css_template (light_decls dark_decls : string) : string :=
  ":root { " ++ light_decls ++ " }"
    ++ "@media (prefers-color-scheme: dark){ :root { " ++ dark_decls ++ " } }".

(** The declarations as one line per leaf of the ThemeTree, depth-first. *)
Definition dfs_decls (x : option (list (string * theme))) : string :=
  objectToCss (vleaves (makeObjectVariables (or_empty x) "" "")).

Definition text_dark : list (string * theme) := [("text", TStr "white")].
Definition text_light : list (string * theme) := [("text", TStr "black")].

(** Subtree [a] and leaf [A] both get the name [--a]. *)
Definition colliding_theme : list (string * theme) :=
  [("a", TObj [("b", TStr "x")]); ("c", TStr "z"); ("A", TStr "y")].

Example colliding_css :
  css (makeDarkMode None (Some colliding_theme)) =
  css_template "--a: y;
--c: z;" "".
Proof. reflexivity. Qed.

(* ------------------------------------------------------------------ *)
(** ** mergeThemes, key by key *)

(** The reducer's value for [key] when [newThemeObject] is the object
    [nl], with [newThemeObject[key]] read by [lookup]. *)
Definition merge_value (oldThemeObject : js) (nl : list (string * js)) (key : string) : option js :=
  match lookup nl key with
  | None => get oldThemeObject key
  | Some v =>
      match v with
      | JObj _ => o <- get oldThemeObject key ;; mergeThemes o v
      | _ => if truthy v then Some v else get oldThemeObject key
      end
  end.

Definition merge_step (F : string -> option js) (accum : option (list (string * js))) (key : string) :=
  a <- accum ;; v <- F key ;; Some (set_key a key v).

(** A key made only of decimal digits.  JS lists array-index keys first,
    in ascending numeric order, which appending does not follow; the
    statements about key order exclude such keys. *)
Definition is_digit (c : ascii) : bool :=
  let n := nat_of_ascii c in ((48 <=? n) && (n <=? 57))%nat.

Fixpoint all_digits (s : string) : bool :=
  match s with
  | EmptyString => true
  | String c r => is_digit c && all_digits r
  end.

Definition index_like (k : string) : bool := negb (String.eqb k "") && all_digits k.

(** One step of [keys] of a spread: a new key is appended. *)
Definition add_key (a : list string) (k : string) : list string :=
  if existsb (String.eqb k) a then a else (a ++ [k])%list.

(** Reads [mergeThemes] performs on [oldThemeObject] that can throw: under
    a key whose override is an object, the old value must be readable and
    the merge below it safe; under a key whose override is a falsy leaf,
    the old value is read. *)
Fixpoint merge_safe (old new : js) : bool :=
  match new with
  | JObj nl =>
      forallb (fun kv =>
                 match snd kv with
                 | JObj _ =>
                     match get old (fst kv) with
                     | Some o => merge_safe o (snd kv)
                     | None => false
                     end
                 | v => truthy v || match get old (fst kv) with Some _ => true | None => false end
                 end) nl
  | _ => true
  end.

Section JsInduction.
Variable R : js -> Prop.
Hypothesis HUndef : R JUndef.
Hypothesis HNull : R JNull.
Hypothesis HBool : forall b, R (JBool b).
Hypothesis HNum : forall n, R (JNum n).
Hypothesis HJStr : forall s, R (JStr s).
Hypothesis HJObj : forall o, Forall (fun kv => R (snd kv)) o -> R (JObj o).

Fixpoint js_ind' (x : js) : R x :=
  match x with
  | JUndef => HUndef
  | JNull => HNull
  | JBool b => HBool b
  | JNum n => HNum n
  | JStr s => HJStr s
  | JObj o =>
      HJObj o ((fix go (l : list (string * js)) : Forall (fun kv => R (snd kv)) l :=
                  match l with
                  | [] => Forall_nil _
                  | kv :: r => Forall_cons kv (js_ind' (snd kv)) (go r)
                  end) o)
  end.
End JsInduction.

(* ------------------------------------------------------------------ *)
(** ** Lemmas on objects *)

Section ObjectLemmas.
Context {A : Type}.
Local Open Scope list_scope.

Lemma set_key_fresh (acc : list (string * A)) k v :
  ~ In k (keys acc) -> set_key acc k v = acc ++ [(k, v)].
Proof.
  induction acc as [|[k' v'] r IH]; intros Hn; simpl; [reflexivity|].
  simpl in Hn. destruct (String.eqb_spec k k') as [->|Hne].
  - exfalso; apply Hn; left; reflexivity.
  - rewrite IH; [reflexivity|]. intros Hi; apply Hn; right; exact Hi.
Qed.

Lemma keys_set_key (acc : list (string * A)) k v :
  keys (set_key acc k v) = if existsb (String.eqb k) (keys acc) then keys acc else keys acc ++ [k].
Proof.
  induction acc as [|[k' v'] r IH]; simpl; [reflexivity|].
  destruct (String.eqb_spec k k') as [->|Hne]; simpl; [reflexivity|].
  rewrite IH. destruct (existsb (String.eqb k) (keys r)); reflexivity.
Qed.

Lemma lookup_set_key (acc : list (string * A)) k v k2 :
  lookup (set_key acc k v) k2 = if String.eqb k2 k then Some v else lookup acc k2.
Proof.
  induction acc as [|[k' v'] r IH]; simpl.
  - reflexivity.
  - destruct (String.eqb_spec k k') as [->|Hne]; simpl.
    + destruct (String.eqb k2 k'); reflexivity.
    + rewrite IH. destruct (String.eqb_spec k2 k') as [->|]; [|reflexivity].
      destruct (String.eqb_spec k' k) as [->|]; [congruence|reflexivity].
Qed.

Lemma NoDup_app_disjoint (l1 l2 : list string) a :
  NoDup (l1 ++ l2) -> In a l1 -> ~ In a l2.
Proof.
  induction l1 as [|x r IH]; simpl; intros Hnd Hin; [contradiction|].
  inversion Hnd as [|? ? Hx Hr]; subst.
  destruct Hin as [->|Hin].
  - intros H2; apply Hx, in_or_app; right; exact H2.
  - apply IH; assumption.
Qed.

(** [Object.keys(o).reduce((acc, b) => ({...acc, [K b]: V b}), acc0)] with
    keys that never repeat only appends. *)
Lemma fold_set_key_app {B} (f : list (string * A) -> B -> list (string * A))
    (K : B -> string) (V : B -> A) (l : list B) (acc : list (string * A)) :
  (forall a b, f a b = set_key a (K b) (V b)) ->
  NoDup (keys acc ++ map K l) ->
  fold_left f l acc = acc ++ map (fun b => (K b, V b)) l.
Proof.
  intros Hf. revert acc. induction l as [|b l IH]; intros acc Hnd; simpl.
  - rewrite app_nil_r; reflexivity.
  - rewrite Hf, set_key_fresh.
    + rewrite IH.
      * rewrite <- app_assoc; reflexivity.
      * unfold keys in *. rewrite map_app, <- app_assoc. exact Hnd.
    + intros Hin. apply (NoDup_app_disjoint (keys acc) _ (K b) Hnd Hin). left; reflexivity.
Qed.

Lemma spread_app (acc o : list (string * A)) :
  NoDup (keys acc ++ keys o) -> spread acc o = acc ++ o.
Proof.
  intros Hnd. unfold spread.
  rewrite (fold_set_key_app _ fst snd); [|reflexivity|exact Hnd].
  f_equal. clear Hnd. induction o as [|[k v] o IH]; simpl; [reflexivity|]. rewrite IH; reflexivity.
Qed.

(** Objects built by [set_key] from [{}] have distinct keys. *)
Lemma NoDup_keys_set_key (acc : list (string * A)) k v :
  NoDup (keys acc) -> NoDup (keys (set_key acc k v)).
Proof.
  intros Hnd. rewrite keys_set_key.
  destruct (existsb (String.eqb k) (keys acc)) eqn:E; [exact Hnd|].
  apply NoDup_app; [exact Hnd|constructor; [intros []|constructor]|].
  intros a Ha [<-|[]]. apply not_true_iff_false in E.
  apply E, existsb_exists. exists k. split; [exact Ha|apply String.eqb_refl].
Qed.

Lemma lookup_spread (acc o : list (string * A)) k :
  NoDup (keys o) ->
  lookup (spread acc o) k = match lookup o k with Some v => Some v | None => lookup acc k end.
Proof.
  unfold spread. revert acc. induction o as [|[k1 v1] o IH]; intros acc Hnd; simpl; [reflexivity|].
  inversion Hnd as [|? ? Hn Hr]; subst.
  rewrite IH by exact Hr. rewrite lookup_set_key.
  destruct (String.eqb_spec k k1) as [->|Hne].
  - assert (lookup o k1 = None) as ->; [|reflexivity].
    clear -Hn. induction o as [|[k2 v2] o IHo]; simpl; [reflexivity|].
    destruct (String.eqb_spec k1 k2) as [->|]; [exfalso; apply Hn; left; reflexivity|].
    apply IHo. intros Hi; apply Hn; right; exact Hi.
  - reflexivity.
Qed.

End ObjectLemmas.

Lemma nodupb_NoDup (l : list string) : nodupb l = true -> NoDup l.
Proof.
  induction l as [|x r IH]; simpl; intros H; [constructor|].
  apply andb_true_iff in H as [Hx Hr]. constructor; [|apply IH, Hr].
  intros Hin. apply negb_true_iff in Hx. assert (existsb (String.eqb x) r = true); [|congruence].
  apply existsb_exists. exists x. split; [exact Hin|apply String.eqb_refl].
Qed.

(* ------------------------------------------------------------------ *)
(** ** The resolver *)

Lemma substring_length_le (s : string) (m n : nat) :
  (String.length (String.substring m n s) <= n)%nat.
Proof.
  revert m n. induction s as [|c s IH]; intros m n; simpl.
  - destruct m, n; simpl; lia.
  - destruct m as [|m]; [destruct n as [|n]; simpl; [lia|specialize (IH 0 n); lia]|].
    apply IH.
Qed.

(** [value.substring(0, 5)] has at most five characters, so it never equals
    the six-character literal ['var(--']. *)
Lemma substring_0_5_ne (value : string) : String.eqb (substring value 0 5) "var(--" = false.
Proof.
  apply String.eqb_neq. intros Heq.
  pose proof (substring_length_le value
    (Z.to_nat (Z.min (Z.min (Z.max 0 0) (Z.of_nat (String.length value)))
                     (Z.min (Z.max 5 0) (Z.of_nat (String.length value)))))
    (Z.to_nat (Z.max (Z.min (Z.max 0 0) (Z.of_nat (String.length value)))
                     (Z.min (Z.max 5 0) (Z.of_nat (String.length value))))
     - Z.to_nat (Z.min (Z.min (Z.max 0 0) (Z.of_nat (String.length value)))
                       (Z.min (Z.max 5 0) (Z.of_nat (String.length value)))))) as Hl.
  unfold substring in Heq. rewrite Heq in Hl. simpl in Hl. lia.
Qed.

Lemma resolveFactory_passthrough (defaultVars : list (string * string)) window value :
  resolveFactory defaultVars window value = Some value.
Proof. unfold resolveFactory. rewrite substring_0_5_ne. reflexivity. Qed.

(** C1 (code_bug): for [dark = {text: "white"}], [light = {text: "black"}]
    and no [window], [resolve("var(--text)")] returns ["var(--text)"]
    unchanged, although the fallback table maps [--text] to ["black"]. *)
Theorem resolve_text_no_window :
  resolve (makeDarkMode (Some text_dark) (Some text_light)) None "var(--text)" = Some "var(--text)"
  /\ lookup (flat_decls (Some text_light)) "--text" = Some "black".
Proof. split; reflexivity. Qed.

(** C9: a string that does not begin with ['var(--'] is returned unchanged
    by [resolve], with or without a [window]. *)
Theorem resolve_non_reference (dark light : option (list (string * theme)))
    (window : option Window) (value : string) :
  String.prefix "var(--" value = false ->
  resolve (makeDarkMode dark light) window value = Some value.
Proof. intros _. simpl. apply resolveFactory_passthrough. Qed.

Lemma resolve_non_reference_witness :
  String.prefix "var(--" "black" = false /\
  resolve (makeDarkMode (Some text_dark) (Some text_light)) None "black" = Some "black".
Proof.
  split; [reflexivity|].
  apply (resolve_non_reference (Some text_dark) (Some text_light) None "black"). reflexivity.
Defined.

(** C10: without a [window], [resolve] is the identity on every string,
    references included. *)
Theorem resolve_identity_no_window (dark light : option (list (string * theme))) (value : string) :
  resolve (makeDarkMode dark light) None value = Some value.
Proof. simpl. apply resolveFactory_passthrough. Qed.

(* ------------------------------------------------------------------ *)
(** ** The name deriver *)

(** C4 (code_bug): the underscore is kept at the start of the following
    segment, so ["bg_color"] becomes ["bg-_color"]; ["fontWeight"] and the
    empty string behave as stated. *)
Theorem jsNameToCssName_values :
  jsNameToCssName "bg_color" = "bg-_color"
  /\ jsNameToCssName "fontWeight" = "font-weight"
  /\ jsNameToCssName "" = "".
Proof. repeat split; reflexivity. Qed.

(* ------------------------------------------------------------------ *)
(** ** mergeThemes *)

(** C7: [mergeThemes({a:1, b:{c:2, d:3}}, {b:{c:9}})] is
    [{a:1, b:{c:9, d:3}}]. *)
Theorem mergeThemes_example :
  mergeThemes (JObj [("a", JNum 1); ("b", JObj [("c", JNum 2); ("d", JNum 3)])])
              (JObj [("b", JObj [("c", JNum 9)])])
  = Some (JObj [("a", JNum 1); ("b", JObj [("c", JNum 9); ("d", JNum 3)])]).
Proof. reflexivity. Qed.

(** C8 (code_bug): [mergeThemes({}, {b: {c: 0}})] and
    [mergeThemes({}, {b: {c: {d: 1}}})] throw: the recursive call receives
    [oldThemeObject = undefined] and reads [undefined[key]]; with a truthy
    leaf one level down the read is short-circuited. *)
Theorem mergeThemes_missing_old_subtree :
  mergeThemes (JObj []) (JObj [("b", JObj [("c", JNum 0)])]) = None
  /\ mergeThemes (JObj []) (JObj [("b", JObj [("c", JObj [("d", JNum 1)])])]) = None
  /\ mergeThemes (JObj []) (JObj [("b", JObj [("c", JNum 9)])])
     = Some (JObj [("b", JObj [("c", JNum 9)])]).
Proof. repeat split; reflexivity. Qed.

(* ------------------------------------------------------------------ *)
(** ** vars *)

(** C3, as stated: dark's top-level entries appear in [vars]. *)
Lemma vars_dark_wins_counterexample :
  ~ (forall (dark light : list (string * theme)) k e,
       lookup (keyVarMap (makeObjectVariables dark "" "")) k = Some e ->
       lookup (vars (makeDarkMode (Some dark) (Some light))) k = Some e).
Proof.
  intros H.
  specialize (H [("a", TStr "x")] [("a", TObj [("b", TStr "y")])] "a" (TStr "var(--a)") eq_refl).
  discriminate H.
Qed.

Lemma NoDup_keys_keyVarMap (o : list (string * vnode)) : NoDup (keys (keyVarMap o)).
Proof.
  unfold keyVarMap. simpl.
  assert (forall acc, NoDup (keys acc) ->
    NoDup (keys (fold_left (fun accum kv =>
       match snd kv with
       | VLeaf _ _ r => set_key accum (fst kv) (TStr r)
       | VSub _ _ _ => set_key accum (fst kv) (TObj (keyVarMap_n (snd kv)))
       end) o acc))) as H.
  { induction o as [|[k n] o IH]; intros acc Hacc; simpl; [exact Hacc|].
    apply IH. destruct n; apply NoDup_keys_set_key, Hacc. }
  apply H. constructor.
Qed.

(** C3, amended: [vars] is [{...keyVarMap(dark), ...keyVarMap(light)}];
    on a key of light's reference map the light entry appears, on a key
    only dark defines the dark entry appears. *)
Theorem vars_light_over_dark (dark light : option (list (string * theme))) (k : string) :
  lookup (vars (makeDarkMode dark light)) k =
  match lookup (keyVarMap (makeObjectVariables (or_empty light) "" "")) k with
  | Some e => Some e
  | None => lookup (keyVarMap (makeObjectVariables (or_empty dark) "" "")) k
  end.
Proof.
  simpl. rewrite lookup_spread by apply NoDup_keys_keyVarMap.
  rewrite lookup_spread by apply NoDup_keys_keyVarMap.
  destruct (lookup (keyVarMap (makeObjectVariables (or_empty light) "" "")) k); [reflexivity|].
  destruct (lookup (keyVarMap (makeObjectVariables (or_empty dark) "" "")) k); reflexivity.
Qed.

(* ------------------------------------------------------------------ *)
(** ** Induction over nested trees *)

Section TreeInduction.
Variable P : theme -> Prop.
Hypothesis HStr : forall s, P (TStr s).
Hypothesis HObj : forall o, Forall (fun kv => P (snd kv)) o -> P (TObj o).

Fixpoint theme_ind' (t : theme) : P t :=
  match t with
  | TStr s => HStr s
  | TObj o =>
      HObj o ((fix go (l : list (string * theme)) : Forall (fun kv => P (snd kv)) l :=
                 match l with
                 | [] => Forall_nil _
                 | kv :: r => Forall_cons kv (theme_ind' (snd kv)) (go r)
                 end) o)
  end.
End TreeInduction.

Section VnodeInduction.
Variable Q : vnode -> Prop.
Hypothesis HLeaf : forall v x r, Q (VLeaf v x r).
Hypothesis HSub : forall o x r, Forall (fun kv => Q (snd kv)) o -> Q (VSub o x r).

Fixpoint vnode_ind' (n : vnode) : Q n :=
  match n with
  | VLeaf v x r => HLeaf v x r
  | VSub o x r =>
      HSub o x r ((fix go (l : list (string * vnode)) : Forall (fun kv => Q (snd kv)) l :=
                     match l with
                     | [] => Forall_nil _
                     | kv :: r => Forall_cons kv (vnode_ind' (snd kv)) (go r)
                     end) o)
  end.
End VnodeInduction.

(* ------------------------------------------------------------------ *)
(** ** The variable tree entry by entry *)

(** The entry [makeObjectVariables] builds for one key. *)
Definition mov_node (prefix suffix : string) (kv : string * theme) : vnode :=
  let name := prefixStr_of prefix ++ jsNameToCssName (fst kv) ++ suffixStr_of suffix in
  match snd kv with
  | TStr s => VLeaf s ("--" ++ name) ("var(--" ++ name ++ ")")
  | TObj _ =>
      VSub (makeObjectVariables_t (snd kv) (prefixStr_of prefix ++ fst kv) suffix)
        ("--" ++ name) ("var(--" ++ name ++ ")")
  end.

Lemma makeObjectVariables_map (kvs : list (string * theme)) prefix suffix :
  NoDup (keys kvs) ->
  makeObjectVariables kvs prefix suffix = map (fun kv => (fst kv, mov_node prefix suffix kv)) kvs.
Proof.
  intros Hnd. unfold makeObjectVariables. simpl.
  apply (fold_set_key_app _ fst (mov_node prefix suffix)); [|exact Hnd].
  intros a [k t]. destruct t; reflexivity.
Qed.

Definition kvm_val (n : vnode) : theme :=
  match n with
  | VLeaf _ _ r => TStr r
  | VSub _ _ _ => TObj (keyVarMap_n n)
  end.

Lemma keyVarMap_map (o : list (string * vnode)) :
  NoDup (keys o) -> keyVarMap o = map (fun kv => (fst kv, kvm_val (snd kv))) o.
Proof.
  intros Hnd. unfold keyVarMap. simpl.
  apply (fold_set_key_app _ fst (fun kv => kvm_val (snd kv))); [|exact Hnd].
  intros a [k n]. destruct n; reflexivity.
Qed.

Definition vcm_val (n : vnode) : theme :=
  match n with
  | VLeaf v _ _ => TStr v
  | VSub _ _ _ => TObj (varColorMap_n n)
  end.

Lemma varColorMap_map (o : list (string * vnode)) :
  NoDup (map (fun kv => var_of (snd kv)) o) ->
  varColorMap o = map (fun kv => (var_of (snd kv), vcm_val (snd kv))) o.
Proof.
  intros Hnd. unfold varColorMap. simpl.
  apply (fold_set_key_app _ (fun kv : string * vnode => var_of (snd kv)) (fun kv : string * vnode => vcm_val (snd kv))); [|exact Hnd].
  intros a [k n]. destruct n; reflexivity.
Qed.

Lemma keys_map_fst {A B} (f : string * A -> B) (l : list (string * A)) :
  keys (map (fun kv => (fst kv, f kv)) l) = keys l.
Proof. unfold keys. rewrite map_map. reflexivity. Qed.

Lemma wfb_TObj (o : list (string * theme)) :
  wfb (TObj o) = true -> NoDup (keys o) /\ Forall (fun kv => wfb (snd kv) = true) o.
Proof.
  simpl. intros H. apply andb_true_iff in H as [H1 H2].
  split; [apply nodupb_NoDup, H1|]. apply Forall_forall. intros x Hx.
  rewrite forallb_forall in H2. apply H2, Hx.
Qed.

Lemma shape_keyVarMap_aux (t : theme) :
  forall prefix suffix, wfb t = true ->
  match t with
  | TStr _ => True
  | TObj kvs => theme_shape (TObj (keyVarMap (makeObjectVariables kvs prefix suffix))) = theme_shape t
  end.
Proof.
  induction t as [s|o IH] using theme_ind'; intros prefix suffix Hwf; [exact I|].
  apply wfb_TObj in Hwf as [Hnd Hall].
  rewrite makeObjectVariables_map by exact Hnd.
  rewrite keyVarMap_map
    by (rewrite (keys_map_fst (mov_node prefix suffix)); exact Hnd).
  simpl. f_equal. rewrite !map_map. apply map_ext_in. intros [k t] Hin. simpl.
  f_equal. destruct t as [s|o']; [reflexivity|].
  rewrite Forall_forall in IH, Hall.
  apply (IH (k, TObj o') Hin (prefixStr_of prefix ++ k) suffix (Hall _ Hin)).
Qed.

(** C5: the reference map of the variable tree built from a ThemeTree has
    the ThemeTree's key structure. *)
Theorem keyVarMap_shape (kvs : list (string * theme)) (prefix suffix : string) :
  wfb (TObj kvs) = true ->
  theme_shape (TObj (keyVarMap (makeObjectVariables kvs prefix suffix))) = theme_shape (TObj kvs).
Proof. apply (shape_keyVarMap_aux (TObj kvs)). Qed.

Lemma keyVarMap_shape_witness :
  wfb (TObj readme_light) = true /\
  theme_shape (TObj (keyVarMap (makeObjectVariables readme_light "" ""))) = theme_shape (TObj readme_light).
Proof. split; [reflexivity|]. apply keyVarMap_shape. reflexivity. Defined.

(* ------------------------------------------------------------------ *)
(** ** Generated property names *)

Lemma string_length_append (x y : string) :
  String.length (x ++ y) = (String.length x + String.length y)%nat.
Proof. induction x as [|c x IH]; simpl; [reflexivity|rewrite IH; reflexivity]. Qed.

Lemma string_append_assoc (x y z : string) : x ++ (y ++ z) = (x ++ y) ++ z.
Proof. induction x as [|c x IH]; simpl; [reflexivity|rewrite IH; reflexivity]. Qed.

Lemma string_append_nil_r (x : string) : x ++ "" = x.
Proof. induction x as [|c x IH]; simpl; [reflexivity|rewrite IH; reflexivity]. Qed.

Lemma append_cancel_l (p x y : string) : p ++ x = p ++ y -> x = y.
Proof. induction p as [|c p IH]; simpl; intros H; [exact H|inversion H; auto]. Qed.

Lemma append_cancel_r (x y s : string) : x ++ s = y ++ s -> x = y.
Proof.
  revert y. induction x as [|c x IH]; intros [|d y] H; simpl in H.
  - reflexivity.
  - apply (f_equal String.length) in H. simpl in H. rewrite string_length_append in H. lia.
  - apply (f_equal String.length) in H. simpl in H. rewrite string_length_append in H. lia.
  - inversion H as [[Hc Hr]]. subst d. f_equal. apply IH, Hr.
Qed.

Lemma NoDup_map_injective {A B} (f : A -> B) (l : list A) :
  (forall x y, f x = f y -> x = y) -> NoDup l -> NoDup (map f l).
Proof.
  intros Hinj Hnd. induction Hnd as [|x l Hx Hnd IH]; simpl; constructor; [|exact IH].
  intros Hin. apply in_map_iff in Hin as [y [Hy Hin]]. apply Hinj in Hy. subst y. contradiction.
Qed.

(** C6, as stated: distinct keys, hence distinct key paths, always give
    distinct property names. *)
Lemma property_names_collide :
  ~ (forall kvs, wfb (TObj kvs) = true ->
       NoDup (map fst (vleaves (makeObjectVariables kvs "" "")))).
Proof.
  intros H.
  specialize (H [("fontWeight", TStr "a"); ("font-weight", TStr "b")] eq_refl).
  simpl in H. inversion H as [|? ? Hn]; subst. apply Hn. left. reflexivity.
Qed.

(** A nested path and a flat key collide too. *)
Example nested_path_collides :
  map fst (vleaves (makeObjectVariables [("a", TObj [("b", TStr "x")]); ("a-b", TStr "y")] "" ""))
  = ["--a-b"; "--a-b"].
Proof. reflexivity. Qed.

Lemma prefix_app (a z : string) : String.prefix a (a ++ z) = true.
Proof.
  induction a as [|c a IH]; simpl; [destruct z; reflexivity|].
  destruct (ascii_dec c c) as [_|Hn]; [exact IH|contradiction].
Qed.

Lemma prefix_hyphen (k b : string) : String.prefix (k ++ "-") (k ++ String "-" b) = true.
Proof. change (String "-" b) with ("-" ++ b). rewrite (string_append_assoc k "-" b). apply prefix_app. Qed.

Lemma no_hyphen_split (k1 k2 b1 b2 : string) :
  no_hyphen k1 = true -> no_hyphen k2 = true ->
  k1 ++ String "-" b1 = k2 ++ String "-" b2 -> k1 = k2.
Proof.
  revert k2. induction k1 as [|c k1 IH]; intros [|d k2] H1 H2 H; simpl in *.
  - reflexivity.
  - injection H as Hd _. subst d. discriminate H2.
  - injection H as Hc _. subst c. discriminate H1.
  - injection H as Hc H. subst d.
    apply andb_true_iff in H1 as [_ H1]. apply andb_true_iff in H2 as [_ H2].
    f_equal. exact (IH k2 H1 H2 H).
Qed.

Lemma NoDup_flat_map_disj {A B} (g : A -> list B) (l : list A) :
  (forall x, In x l -> NoDup (g x)) ->
  (forall x y a, In x l -> In y l -> In a (g x) -> In a (g y) -> x = y) ->
  NoDup l -> NoDup (flat_map g l).
Proof.
  intros Hg Hd Hl. induction Hl as [|x l Hx Hl IH]; simpl; [constructor|].
  apply NoDup_app.
  - apply Hg. left. reflexivity.
  - apply IH; [intros y Hy; apply Hg; right; exact Hy|].
    intros y z a Hy Hz. apply Hd; right; assumption.
  - intros a Ha Ha'. apply in_flat_map in Ha' as [y [Hy Ha']].
    assert (x = y) as <- by (apply (Hd x y a); [left; reflexivity|right; exact Hy|exact Ha|exact Ha']).
    contradiction.
Qed.

Lemma NoDup_map_eq {A B} (f : A -> B) (l : list A) x y :
  NoDup (map f l) -> In x l -> In y l -> f x = f y -> x = y.
Proof.
  induction l as [|z l IH]; simpl; intros Hnd Hx Hy Hf; [contradiction|].
  inversion Hnd as [|? ? Hz Hr]; subst.
  destruct Hx as [<-|Hx], Hy as [<-|Hy]; try reflexivity.
  - exfalso. apply Hz. rewrite Hf. apply in_map, Hy.
  - exfalso. apply Hz. rewrite <- Hf. apply in_map, Hx.
  - apply IH; assumption.
Qed.

Lemma bodies_nodup (t : theme) : names_ok t = true -> NoDup (leaf_bodies t).
Proof.
  induction t as [s|o IH] using theme_ind'; intros H; [constructor|].
  simpl in H. apply andb_true_iff in H as [Hlev Hall].
  unfold level_ok in Hlev.
  apply andb_true_iff in Hlev as [Hlev Hpre]. apply andb_true_iff in Hlev as [Hlev Hsub].
  apply andb_true_iff in Hlev as [Hk Hl].
  apply nodupb_NoDup in Hk. apply nodupb_NoDup in Hl.
  rewrite forallb_forall in Hall, Hsub, Hpre. rewrite Forall_forall in IH.
  simpl. apply NoDup_flat_map_disj.
  - intros [k t] Hin. destruct t as [s|o'].
    + constructor; [intros []|constructor].
    + apply NoDup_map_injective.
      * intros x y Hxy. apply append_cancel_l in Hxy. injection Hxy as Hxy. exact Hxy.
      * apply (IH _ Hin), (Hall _ Hin).
  - intros [k1 t1] [k2 t2] a Hin1 Hin2 Ha1 Ha2.
    assert (Hpre' : forall x y, In x o -> In y o -> is_leaf (snd x) = true -> is_leaf (snd y) = false ->
              String.prefix (fst y ++ "-") (jsNameToCssName (fst x)) = false).
    { intros x y Hx Hy Hlx Hly. specialize (Hpre x Hx). rewrite forallb_forall in Hpre.
      specialize (Hpre y Hy). rewrite Hlx, Hly in Hpre. simpl in Hpre.
      apply negb_true_iff, Hpre. }
    destruct t1 as [s1|o1], t2 as [s2|o2]; simpl in Ha1, Ha2.
    + destruct Ha1 as [<-|[]]. destruct Ha2 as [Ha2|[]].
      apply (NoDup_map_eq _ _ _ _ Hl); [apply filter_In; split; [exact Hin1|reflexivity]
                                        |apply filter_In; split; [exact Hin2|reflexivity]|].
      simpl. symmetry. exact Ha2.
    + destruct Ha1 as [<-|[]]. apply in_map_iff in Ha2 as [b [Hb _]].
      pose proof (Hpre' _ _ Hin1 Hin2 eq_refl eq_refl) as Hp. cbn [fst] in Hp.
      assert (Hq : String.prefix (k2 ++ "-") (jsNameToCssName k1) = true)
        by (rewrite <- Hb; apply prefix_hyphen).
      rewrite Hq in Hp. discriminate Hp.
    + destruct Ha2 as [<-|[]]. apply in_map_iff in Ha1 as [b [Hb _]].
      pose proof (Hpre' _ _ Hin2 Hin1 eq_refl eq_refl) as Hp. cbn [fst] in Hp.
      assert (Hq : String.prefix (k1 ++ "-") (jsNameToCssName k2) = true)
        by (rewrite <- Hb; apply prefix_hyphen).
      rewrite Hq in Hp. discriminate Hp.
    + apply in_map_iff in Ha1 as [b1 [Hb1 _]]. apply in_map_iff in Ha2 as [b2 [Hb2 _]].
      pose proof (Hsub _ Hin1) as H1. pose proof (Hsub _ Hin2) as H2. simpl in H1, H2.
      apply andb_true_iff in H1 as [_ H1]. apply andb_true_iff in H2 as [_ H2].
      rewrite <- Hb2 in Hb1. simpl in Hb1. pose proof (no_hyphen_split _ _ _ _ H1 H2 Hb1) as <-.
      clear -Hk Hin1 Hin2. induction o as [|[k v] o IHo]; [destruct Hin1|].
      inversion Hk as [|? ? Hn Hr]; subst. destruct Hin1 as [E1|Hin1], Hin2 as [E2|Hin2].
      * rewrite E1 in E2. exact E2.
      * injection E1 as <- _. exfalso. apply Hn. apply (in_map fst) in Hin2. exact Hin2.
      * injection E2 as <- _. exfalso. apply Hn. apply (in_map fst) in Hin1. exact Hin1.
      * apply IHo; assumption.
  - apply (NoDup_map_inv fst), Hk.
Qed.

Lemma prefixStr_of_nonempty (x k : string) : k <> "" -> prefixStr_of (x ++ k) = (x ++ k) ++ "-".
Proof.
  intros Hk. unfold prefixStr_of. destruct (String.eqb_spec (x ++ k) "") as [E|]; [|reflexivity].
  exfalso. apply Hk. destruct x; [exact E|discriminate E].
Qed.

Lemma names_bodies (t : theme) :
  names_ok t = true -> forall prefix suffix,
  match t with
  | TStr _ => True
  | TObj kvs =>
      map fst (vleaves (makeObjectVariables kvs prefix suffix))
      = map (fun b => "--" ++ prefixStr_of prefix ++ b ++ suffixStr_of suffix) (leaf_bodies t)
  end.
Proof.
  induction t as [s|o IH] using theme_ind'; intros H prefix suffix; [exact I|].
  simpl in H. apply andb_true_iff in H as [Hlev Hall].
  unfold level_ok in Hlev.
  apply andb_true_iff in Hlev as [Hlev _]. apply andb_true_iff in Hlev as [Hlev Hsub].
  apply andb_true_iff in Hlev as [Hk _]. apply nodupb_NoDup in Hk.
  rewrite makeObjectVariables_map by exact Hk. clear Hk.
  induction o as [|[k t] o IHo]; [reflexivity|].
  inversion IH as [|? ? IHt IHr]; subst. simpl in Hall, Hsub.
  apply andb_true_iff in Hall as [Ht Hall]. apply andb_true_iff in Hsub as [Hst Hsub].
  specialize (IHo IHr Hsub Hall). unfold vleaves in *. simpl in *.
  rewrite map_app, map_app, IHo. f_equal.
  destruct t as [s|o']; [reflexivity|].
  simpl in Hst. apply andb_true_iff in Hst as [Hne _]. apply negb_true_iff in Hne.
  assert (k <> "") as Hne' by (intros E; rewrite E in Hne; discriminate Hne).
  change (map fst (vleaves (makeObjectVariables o' (prefixStr_of prefix ++ k) suffix))
          = map (fun b => "--" ++ prefixStr_of prefix ++ b ++ suffixStr_of suffix)
                (map (fun b => k ++ "-" ++ b) (leaf_bodies (TObj o')))).
  rewrite (IHt Ht), map_map. apply map_ext. intros b.
  rewrite prefixStr_of_nonempty by exact Hne'. rewrite <- !string_append_assoc. reflexivity.
Qed.

(** C6, amended: the generated property names of the leaves are pairwise
    distinct when, at every level of the ThemeTree, the keys are distinct,
    the leaves' converted names are distinct, every key holding a subtree
    is non-empty and contains no [-], and no leaf's converted name begins
    with a sibling subtree's key followed by [-] ([names_ok]).  Nested
    trees such as [{a: {b: 'x'}, c: 'y'}] qualify, and so do flat trees
    whose keys convert to distinct names. *)
Theorem property_names_unique (kvs : list (string * theme)) (prefix suffix : string) :
  names_ok (TObj kvs) = true ->
  NoDup (map fst (vleaves (makeObjectVariables kvs prefix suffix))).
Proof.
  intros H. pose proof (names_bodies (TObj kvs) H prefix suffix) as E. cbv beta iota in E.
  rewrite E. apply NoDup_map_injective; [|exact (bodies_nodup _ H)].
  intros x y Hxy. apply append_cancel_l in Hxy. apply append_cancel_l in Hxy.
  apply append_cancel_r in Hxy. exact Hxy.
Qed.

Lemma property_names_unique_witness :
  names_ok (TObj [("a", TObj [("b", TStr "x")]); ("c", TStr "y")]) = true /\
  NoDup (map fst (vleaves (makeObjectVariables [("a", TObj [("b", TStr "x")]); ("c", TStr "y")] "" "")))
  /\ NoDup (map fst (vleaves (makeObjectVariables readme_light "" ""))).
Proof.
  split; [reflexivity|]. split.
  - apply property_names_unique. reflexivity.
  - apply property_names_unique. reflexivity.
Defined.

(* ------------------------------------------------------------------ *)
(** ** Flattening the value map *)

Section Flatten.
Local Open Scope list_scope.

Lemma fold_spread_app {B} (f : list (string * string) -> B -> list (string * string))
    (P : B -> list (string * string)) (l : list B) (acc : list (string * string)) :
  (forall a b, f a b = spread a (P b)) ->
  NoDup (keys acc ++ keys (flat_map P l)) ->
  fold_left f l acc = acc ++ flat_map P l.
Proof.
  intros Hf. revert acc. induction l as [|b l IH]; intros acc Hnd; simpl.
  - rewrite app_nil_r; reflexivity.
  - simpl in Hnd. unfold keys in Hnd. rewrite map_app, app_assoc in Hnd.
    rewrite Hf, spread_app.
    + rewrite IH; [rewrite app_assoc; reflexivity|].
      unfold keys. rewrite map_app. exact Hnd.
    + eapply NoDup_app_remove_r. exact Hnd.
Qed.

Lemma NoDup_app_incl (a b a' b' : list string) :
  NoDup (a ++ b) -> incl a' a -> incl b' b -> NoDup a' -> NoDup b' -> NoDup (a' ++ b').
Proof.
  intros Hab Ha Hb Ha' Hb'. apply NoDup_app; [exact Ha'|exact Hb'|].
  intros x Hx Hx'. apply (NoDup_app_disjoint a b x Hab (Ha x Hx) (Hb x Hx')).
Qed.

Lemma var_in_all_vars (o : list (string * vnode)) kv :
  In kv o -> In (var_of (snd kv)) (all_vars o).
Proof.
  intros Hin. unfold all_vars. apply in_flat_map. exists kv. split; [exact Hin|].
  destruct (snd kv); left; reflexivity.
Qed.

Lemma NoDup_sibling_vars (o : list (string * vnode)) :
  NoDup (all_vars o) -> NoDup (map (fun kv => var_of (snd kv)) o).
Proof.
  induction o as [|[k n] o IH]; simpl; intros Hnd; [constructor|].
  unfold all_vars in Hnd. simpl in Hnd. fold (all_vars o) in Hnd.
  constructor.
  - intros Hin. apply in_map_iff in Hin as [kv [Hkv Hin]].
    apply (NoDup_app_disjoint (all_vars_n n) (all_vars o) (var_of n) Hnd).
    + destruct n; left; reflexivity.
    + rewrite <- Hkv. apply var_in_all_vars, Hin.
  - apply IH. eapply NoDup_app_remove_l. exact Hnd.
Qed.

Lemma leaf_names_in_all_vars_n (n : vnode) :
  incl (map fst (vleaves_n n)) (all_vars_n n)
  /\ (NoDup (all_vars_n n) -> NoDup (map fst (vleaves_n n))).
Proof.
  induction n as [v x r|o x r IH] using vnode_ind'.
  - split; [intros y Hy; exact Hy|intros H; exact H].
  - simpl. fold (all_vars o). fold (vleaves o).
    assert (incl (map fst (vleaves o)) (all_vars o)
            /\ (NoDup (all_vars o) -> NoDup (map fst (vleaves o)))) as [Hi Hn].
    { clear x r. induction o as [|[k n] o IHo]; [split; [intros y []|intros _; constructor]|].
      inversion IH as [|? ? [Hi1 Hn1] IH2]; subst. destruct (IHo IH2) as [Hi2 Hn2].
      unfold vleaves, all_vars in *. simpl. rewrite map_app.
      split.
      - apply incl_app; [apply incl_appl, Hi1|apply incl_appr, Hi2].
      - intros Hnd. apply (NoDup_app_incl _ _ _ _ Hnd Hi1 Hi2).
        + apply Hn1. eapply NoDup_app_remove_r. exact Hnd.
        + apply Hn2. eapply NoDup_app_remove_l. exact Hnd. }
    split.
    + intros y Hy. right. apply Hi, Hy.
    + intros Hnd. inversion Hnd; subst. apply Hn. assumption.
Qed.

Lemma NoDup_leaf_names (o : list (string * vnode)) :
  NoDup (all_vars o) -> NoDup (map fst (vleaves o)).
Proof.
  induction o as [|[k n] o IH]; intros Hnd; [constructor|].
  destruct (leaf_names_in_all_vars_n n) as [Hi1 Hn1].
  unfold vleaves, all_vars in *. simpl in *. rewrite map_app.
  assert (incl (map fst (flat_map (fun kv => vleaves_n (snd kv)) o))
               (flat_map (fun kv => all_vars_n (snd kv)) o)) as Hi2.
  { clear. induction o as [|[k m] o IHo]; simpl; [intros y []|].
    rewrite map_app. apply incl_app; [apply incl_appl, (proj1 (leaf_names_in_all_vars_n m))|].
    apply incl_appr, IHo. }
  apply (NoDup_app_incl _ _ _ _ Hnd Hi1 Hi2).
  - apply Hn1. eapply NoDup_app_remove_r. exact Hnd.
  - apply IH. eapply NoDup_app_remove_l. exact Hnd.
Qed.

(** Without name collisions, flattening the value map lists every leaf of
    the variable tree once, depth-first. *)
Lemma treeWalk_varColorMap_n (n : vnode) :
  match n with
  | VLeaf _ _ _ => True
  | VSub o _ _ => NoDup (all_vars o) -> treeWalk (varColorMap o) = vleaves o
  end.
Proof.
  induction n as [v x r|o x r IH] using vnode_ind'; [exact I|]. intros Hnd.
  rewrite varColorMap_map by (apply NoDup_sibling_vars; exact Hnd).
  set (P := fun kv : string * theme =>
              match snd kv with
              | TStr s => [(fst kv, s)]
              | TObj _ => treeWalk_t (snd kv)
              end).
  assert (flat_map P (map (fun kv => (var_of (snd kv), vcm_val (snd kv))) o) = vleaves o) as Heq.
  { clear x r. induction o as [|[k n] o IHo]; [reflexivity|].
    inversion IH as [|? ? IHn IHr]; subst.
    unfold all_vars in Hnd. simpl in Hnd. simpl.
    rewrite IHo; [|exact IHr|eapply NoDup_app_remove_l; exact Hnd].
    f_equal. destruct n as [v x r|o' x r]; [reflexivity|].
    change (treeWalk (varColorMap o') = vleaves o'). apply IHn.
    apply NoDup_app_remove_r in Hnd. inversion Hnd; assumption. }
  unfold treeWalk. cbn [treeWalk_t].
  rewrite (fold_spread_app _ P); [exact Heq|reflexivity|].
  simpl. rewrite Heq. apply NoDup_leaf_names, Hnd.
Qed.

Lemma flat_decls_dfs (x : option (list (string * theme))) :
  NoDup (all_vars (makeObjectVariables (or_empty x) "" "")) ->
  flat_decls x = vleaves (makeObjectVariables (or_empty x) "" "").
Proof.
  apply (treeWalk_varColorMap_n (VSub (makeObjectVariables (or_empty x) "" "") "" "")).
Qed.

Lemma vleaves_values_aux (t : theme) :
  forall prefix suffix, wfb t = true ->
  match t with
  | TStr _ => True
  | TObj kvs => map snd (vleaves (makeObjectVariables kvs prefix suffix)) = theme_values t
  end.
Proof.
  induction t as [s|o IH] using theme_ind'; intros prefix suffix Hwf; [exact I|].
  apply wfb_TObj in Hwf as [Hnd Hall].
  rewrite makeObjectVariables_map by exact Hnd.
  clear Hnd. induction o as [|[k t] o IHo]; [reflexivity|].
  inversion IH as [|? ? IHt IHr]; subst. inversion Hall as [|? ? Ht Hr]; subst.
  unfold vleaves in *. simpl in *. rewrite map_app, IHo by assumption. f_equal.
  destruct t as [s|o']; [reflexivity|].
  apply (IHt (prefixStr_of prefix ++ k)%string suffix Ht).
Qed.

End Flatten.

(* ------------------------------------------------------------------ *)
(** ** The stylesheet *)

(** C2, as stated: each block lists one [--name: value;] line per leaf of
    the ThemeTree, depth-first.  A subtree and a later leaf with the same
    generated name ([a] and [A]) break it. *)
Lemma css_dfs_counterexample :
  ~ (forall dark light : option (list (string * theme)),
       css (makeDarkMode dark light) = css_template (dfs_decls light) (dfs_decls dark)).
Proof.
  intros H. specialize (H None (Some colliding_theme)).
  vm_compute in H. discriminate H.
Qed.

(** C2, amended: [css] is the light block then the dark media-query block,
    each the [name: value;] lines of that variant's flattened value map,
    newline-joined, in that map's key order.  For each variant on its own:
    when the generated names of its variable tree are pairwise distinct,
    its block is one line per leaf, depth-first, and the leaves' values
    are the ThemeTree's values in depth-first order. *)
Theorem css_sections (dark light : option (list (string * theme))) :
  css (makeDarkMode dark light)
    = css_template (objectToCss (flat_decls light)) (objectToCss (flat_decls dark))
  /\ (NoDup (all_vars (makeObjectVariables (or_empty light) "" "")) ->
      objectToCss (flat_decls light) = dfs_decls light)
  /\ (NoDup (all_vars (makeObjectVariables (or_empty dark) "" "")) ->
      objectToCss (flat_decls dark) = dfs_decls dark)
  /\ (wfb (TObj (or_empty light)) = true ->
      map snd (vleaves (makeObjectVariables (or_empty light) "" ""))
        = theme_values (TObj (or_empty light)))
  /\ (wfb (TObj (or_empty dark)) = true ->
      map snd (vleaves (makeObjectVariables (or_empty dark) "" ""))
        = theme_values (TObj (or_empty dark))).
Proof.
  split; [reflexivity|]. split; [|split; [|split]].
  - intros Hl. unfold dfs_decls. rewrite <- (flat_decls_dfs light Hl). reflexivity.
  - intros Hd. unfold dfs_decls. rewrite <- (flat_decls_dfs dark Hd). reflexivity.
  - apply (vleaves_values_aux (TObj (or_empty light))).
  - apply (vleaves_values_aux (TObj (or_empty dark))).
Qed.

(** The light block is depth-first although the dark variant has colliding
    names. *)
Lemma css_sections_witness :
  NoDup (all_vars (makeObjectVariables readme_light "" "")) /\
  css (makeDarkMode (Some colliding_theme) (Some readme_light))
    = css_template (dfs_decls (Some readme_light)) (objectToCss (flat_decls (Some colliding_theme))).
Proof.
  assert (Hl : NoDup (all_vars (makeObjectVariables readme_light "" ""))).
  { apply nodupb_NoDup. reflexivity. }
  split; [exact Hl|].
  destruct (css_sections (Some colliding_theme) (Some readme_light)) as [Hc [Hlight _]].
  rewrite Hc, (Hlight Hl). reflexivity.
Defined.

(* ------------------------------------------------------------------ *)
(** ** Further properties of index.js and utils.js *)

(** [resolve] never reads [window]: the reference branch is unreachable,
    so with a live [window] too every string comes back unchanged. *)
Theorem resolve_ignores_window (dark light : option (list (string * theme)))
    (getPropertyValue : Window) (value : string) :
  resolve (makeDarkMode dark light) (Some getPropertyValue) value = Some value.
Proof. simpl. apply resolveFactory_passthrough. Qed.

(** With both variants absent or empty, [vars] is [{}] and both blocks of
    [css] are empty. *)
Theorem makeDarkMode_empty (dark light : option (list (string * theme))) :
  or_empty dark = [] -> or_empty light = [] ->
  vars (makeDarkMode dark light) = []
  /\ css (makeDarkMode dark light)
     = ":root {  }@media (prefers-color-scheme: dark){ :root {  } }".
Proof. intros Hd Hl. unfold makeDarkMode. rewrite Hd, Hl. split; reflexivity. Qed.

Lemma makeDarkMode_empty_witness :
  or_empty None = [] /\ or_empty (Some []) = [] /\
  vars (makeDarkMode None (Some [])) = [].
Proof.
  split; [reflexivity|]. split; [reflexivity|].
  exact (proj1 (makeDarkMode_empty None (Some []) eq_refl eq_refl)).
Defined.

Lemma NoDup_keys_spread {A} (acc o : list (string * A)) :
  NoDup (keys acc) -> NoDup (keys (spread acc o)).
Proof.
  unfold spread. revert acc. induction o as [|[k v] o IH]; intros acc H; simpl; [exact H|].
  apply IH, NoDup_keys_set_key, H.
Qed.

Lemma keyVarMap_same_shape_aux (a : theme) :
  wfb a = true -> forall b, wfb b = true -> theme_shape a = theme_shape b ->
  forall prefix suffix,
  match a, b with
  | TObj ka, TObj kb =>
      keyVarMap (makeObjectVariables ka prefix suffix) = keyVarMap (makeObjectVariables kb prefix suffix)
  | _, _ => True
  end.
Proof.
  induction a as [s|ka IH] using theme_ind'; intros Ha b Hb Hshape prefix suffix; [exact I|].
  destruct b as [s|kb]; [exact I|].
  apply wfb_TObj in Ha as [Hnda Halla]. apply wfb_TObj in Hb as [Hndb Hallb].
  rewrite (makeObjectVariables_map ka) by exact Hnda.
  rewrite (makeObjectVariables_map kb) by exact Hndb.
  rewrite keyVarMap_map by (rewrite (keys_map_fst (mov_node prefix suffix)); exact Hnda).
  rewrite keyVarMap_map by (rewrite (keys_map_fst (mov_node prefix suffix)); exact Hndb).
  rewrite !map_map. simpl in Hshape. injection Hshape as Hshape.
  clear Hnda Hndb. revert kb Hshape Hallb.
  induction ka as [|[k t] ka IHka]; intros [|[k' t'] kb] Hshape Hallb; try discriminate Hshape;
    [reflexivity|].
  simpl in Hshape. injection Hshape as Hk Ht Hr. subst k'.
  inversion IH as [|? ? IHt IHr]; subst. inversion Halla as [|? ? Hat Har]; subst.
  inversion Hallb as [|? ? Hbt Hbr]; subst.
  simpl. f_equal; [|apply IHka; assumption].
  f_equal. destruct t as [s|o]; destruct t' as [s'|o']; try discriminate Ht; [reflexivity|].
  simpl. f_equal.
  change (keyVarMap (makeObjectVariables o (prefixStr_of prefix ++ k) suffix)
          = keyVarMap (makeObjectVariables o' (prefixStr_of prefix ++ k) suffix)).
  apply (IHt Hat (TObj o') Hbt Ht).
Qed.

Lemma set_key_present {A} (X : list (string * A)) k v :
  NoDup (keys X) -> In (k, v) X -> set_key X k v = X.
Proof.
  induction X as [|[k' v'] r IH]; intros Hnd Hin; [destruct Hin|].
  inversion Hnd as [|? ? Hn Hr]; subst. simpl.
  destruct (String.eqb_spec k k') as [->|Hne].
  - destruct Hin as [Heq|Hin]; [injection Heq as ->; reflexivity|].
    exfalso. apply Hn. apply (in_map fst) in Hin. exact Hin.
  - destruct Hin as [Heq|Hin]; [injection Heq as -> _; contradiction|].
    rewrite IH by assumption. reflexivity.
Qed.

Lemma spread_self {A} (X : list (string * A)) : NoDup (keys X) -> spread X X = X.
Proof.
  intros Hnd. unfold spread.
  assert (forall l, incl l X -> fold_left (fun a kv => set_key a (fst kv) (snd kv)) l X = X) as H.
  { induction l as [|[k v] l IH]; intros Hincl; simpl; [reflexivity|].
    rewrite set_key_present; [|exact Hnd|apply Hincl; left; reflexivity].
    apply IH. intros y Hy. apply Hincl. right. exact Hy. }
  apply H. intros y Hy. exact Hy.
Qed.

(** When the two variants have the same key structure (the README's
    requirement), [vars] is the light variant's reference map, which is
    also the dark variant's: references do not depend on leaf values. *)
Theorem vars_same_shape (dark light : option (list (string * theme))) :
  wfb (TObj (or_empty dark)) = true -> wfb (TObj (or_empty light)) = true ->
  theme_shape (TObj (or_empty dark)) = theme_shape (TObj (or_empty light)) ->
  vars (makeDarkMode dark light) = keyVarMap (makeObjectVariables (or_empty light) "" "")
  /\ keyVarMap (makeObjectVariables (or_empty dark) "" "")
     = keyVarMap (makeObjectVariables (or_empty light) "" "").
Proof.
  intros Hd Hl Hs.
  pose proof (keyVarMap_same_shape_aux (TObj (or_empty dark)) Hd (TObj (or_empty light)) Hl Hs "" "")
    as Heq.
  simpl in Heq. split; [|exact Heq].
  simpl. rewrite Heq.
  rewrite (spread_app [] (keyVarMap (makeObjectVariables (or_empty light) "" "")))
    by apply NoDup_keys_keyVarMap.
  apply spread_self, NoDup_keys_keyVarMap.
Qed.

Lemma vars_same_shape_witness :
  vars (makeDarkMode (Some readme_dark) (Some readme_light))
  = keyVarMap (makeObjectVariables readme_light "" "").
Proof. apply (vars_same_shape (Some readme_dark) (Some readme_light)); reflexivity. Defined.

Lemma keyVarMap_values_aux (t : theme) :
  forall prefix suffix, wfb t = true ->
  match t with
  | TStr _ => True
  | TObj kvs =>
      theme_values (TObj (keyVarMap (makeObjectVariables kvs prefix suffix)))
      = map (fun kv => "var(" ++ fst kv ++ ")") (vleaves (makeObjectVariables kvs prefix suffix))
  end.
Proof.
  induction t as [s|o IH] using theme_ind'; intros prefix suffix Hwf; [exact I|].
  apply wfb_TObj in Hwf as [Hnd Hall].
  rewrite makeObjectVariables_map by exact Hnd.
  rewrite keyVarMap_map by (rewrite (keys_map_fst (mov_node prefix suffix)); exact Hnd).
  clear Hnd. induction o as [|[k t] o IHo]; [reflexivity|].
  inversion IH as [|? ? IHt IHr]; subst. inversion Hall as [|? ? Ht Hr]; subst.
  unfold vleaves in *. simpl in *. rewrite map_app, IHo by assumption. f_equal.
  destruct t as [s|o']; [reflexivity|].
  apply (IHt (prefixStr_of prefix ++ k) suffix Ht).
Qed.

(** With distinct generated names, every reference in the light variant's
    reference map is [var(n)] for a property [n] the light block of [css]
    declares (the same table is [resolve]'s fallback). *)
Theorem references_declared (light : option (list (string * theme))) :
  wfb (TObj (or_empty light)) = true ->
  NoDup (all_vars (makeObjectVariables (or_empty light) "" "")) ->
  forall r, In r (theme_values (TObj (keyVarMap (makeObjectVariables (or_empty light) "" "")))) ->
  exists n, r = "var(" ++ n ++ ")" /\ In n (keys (flat_decls light)).
Proof.
  intros Hwf Hnd r Hr.
  rewrite (keyVarMap_values_aux (TObj (or_empty light)) "" "" Hwf) in Hr.
  apply in_map_iff in Hr as [kv [Hkv Hin]].
  exists (fst kv). split; [symmetry; exact Hkv|].
  rewrite (flat_decls_dfs light Hnd). apply in_map, Hin.
Qed.

Lemma references_declared_witness :
  exists n, "var(--grad-skeleton)" = "var(" ++ n ++ ")" /\ In n (keys (flat_decls (Some readme_light))).
Proof.
  apply (references_declared (Some readme_light)).
  - reflexivity.
  - apply nodupb_NoDup. reflexivity.
  - simpl. right. right. left. reflexivity.
Defined.

(* ------------------------------------------------------------------ *)
(** ** Lemmas on mergeThemes *)


Lemma fold_left_ext_in {A B} (f g : A -> B -> A) (l : list B) (a : A) :
  (forall x y, In y l -> f x y = g x y) -> fold_left f l a = fold_left g l a.
Proof.
  revert a. induction l as [|y l IH]; intros a H; simpl; [reflexivity|].
  rewrite H by (left; reflexivity). apply IH. intros x z Hz. apply H. right. exact Hz.
Qed.

Lemma mergeThemes_obj (oldThemeObject : js) (nl : list (string * js)) :
  mergeThemes oldThemeObject (JObj nl) =
  res <- fold_left (merge_step (merge_value oldThemeObject nl))
           (keys (spread_js (spread_js [] oldThemeObject) (JObj nl))) (Some []) ;;
  Some (JObj res).
Proof.
  cbn [mergeThemes]. f_equal. apply fold_left_ext_in. intros acc key _.
  unfold merge_step. destruct acc as [a|]; [|reflexivity]. cbn [bind].
  unfold merge_value. clear. induction nl as [|[k' v] r IH]; [reflexivity|].
  cbn [lookup]. destruct (String.eqb key k'); [destruct v; reflexivity|exact IH].
Qed.

Lemma fold_merge_step_None F ks : fold_left (merge_step F) ks None = None.
Proof. induction ks as [|k ks IH]; [reflexivity|exact IH]. Qed.

(** A successful reduction stores [F k] under every key [k]. *)
Lemma fold_merge_step_lookup F ks acc r :
  fold_left (merge_step F) ks (Some acc) = Some r ->
  forall k, lookup r k = if existsb (String.eqb k) ks then F k else lookup acc k.
Proof.
  revert acc. induction ks as [|k0 ks IH]; intros acc Hr k; simpl in *.
  - injection Hr as <-. reflexivity.
  - change (merge_step F (Some acc) k0) with (v <- F k0 ;; Some (set_key acc k0 v)) in Hr.
    destruct (F k0) as [v0|] eqn:Hv0; [|rewrite fold_merge_step_None in Hr; discriminate Hr].
    cbn [bind] in Hr. rewrite (IH _ Hr k), lookup_set_key.
    destruct (String.eqb_spec k k0) as [->|Hne]; simpl.
    + destruct (existsb (String.eqb k0) ks); [reflexivity|symmetry; exact Hv0].
    + reflexivity.
Qed.

Lemma fold_merge_step_Some F ks acc :
  (forall k, In k ks -> F k <> None) ->
  exists r, fold_left (merge_step F) ks (Some acc) = Some r.
Proof.
  revert acc. induction ks as [|k0 ks IH]; intros acc H; simpl; [exists acc; reflexivity|].
  change (merge_step F (Some acc) k0) with (v <- F k0 ;; Some (set_key acc k0 v)).
  destruct (F k0) as [v0|] eqn:Hv0.
  - apply IH. intros k Hk. apply H. right. exact Hk.
  - exfalso. apply (H k0); [left; reflexivity|exact Hv0].
Qed.

Lemma fold_merge_step_keys F ks acc r :
  fold_left (merge_step F) ks (Some acc) = Some r ->
  keys r = fold_left add_key ks (keys acc).
Proof.
  revert acc. induction ks as [|k0 ks IH]; intros acc Hr; simpl in *.
  - injection Hr as <-. reflexivity.
  - change (merge_step F (Some acc) k0) with (v <- F k0 ;; Some (set_key acc k0 v)) in Hr.
    destruct (F k0) as [v0|]; [|rewrite fold_merge_step_None in Hr; discriminate Hr].
    rewrite (IH _ Hr), keys_set_key. reflexivity.
Qed.

Lemma in_keys_set_key {A} (acc : list (string * A)) k v k2 :
  In k2 (keys (set_key acc k v)) <-> k2 = k \/ In k2 (keys acc).
Proof.
  rewrite keys_set_key. destruct (existsb (String.eqb k) (keys acc)) eqn:E.
  - split; [intros H; right; exact H|]. intros [->|H]; [|exact H].
    apply existsb_exists in E as [y [Hy Heq]]. apply String.eqb_eq in Heq. subst y. exact Hy.
  - rewrite in_app_iff. simpl. split; intros [H|H]; auto; destruct H as [H|[]]; auto.
Qed.

Lemma in_keys_spread {A} (acc o : list (string * A)) k :
  In k (keys (spread acc o)) <-> In k (keys acc) \/ In k (keys o).
Proof.
  unfold spread. revert acc. induction o as [|[k1 v1] o IH]; intros acc; simpl.
  - tauto.
  - rewrite IH, in_keys_set_key. unfold keys. simpl. intuition (subst; auto).
Qed.

Lemma existsb_eqb_In (k : string) (l : list string) : existsb (String.eqb k) l = true <-> In k l.
Proof.
  rewrite existsb_exists. split.
  - intros [y [Hy Heq]]. apply String.eqb_eq in Heq. subst. exact Hy.
  - intros H. exists k. split; [exact H|apply String.eqb_refl].
Qed.

(** When [mergeThemes] returns, each key of either object holds the value
    the reducer computes for it. *)
Lemma mergeThemes_lookup (ol nl : list (string * js)) r :
  mergeThemes (JObj ol) (JObj nl) = Some (JObj r) ->
  forall k, In k (keys ol) \/ In k (keys nl) -> lookup r k = merge_value (JObj ol) nl k.
Proof.
  rewrite mergeThemes_obj. intros H k Hk.
  destruct (fold_left _ _ _) as [r'|] eqn:Hf; [|discriminate H].
  injection H as <-. rewrite (fold_merge_step_lookup _ _ _ _ Hf k).
  assert (existsb (String.eqb k) (keys (spread_js (spread_js [] (JObj ol)) (JObj nl))) = true) as ->;
    [|reflexivity].
  apply existsb_eqb_In. cbn [spread_js]. rewrite !in_keys_spread. simpl. tauto.
Qed.



Lemma lookup_In {A} (o : list (string * A)) k v : lookup o k = Some v -> In (k, v) o.
Proof.
  induction o as [|[k' v'] r IH]; simpl; intros H; [discriminate H|].
  destruct (String.eqb_spec k k') as [->|]; [injection H as ->; left; reflexivity|].
  right. apply IH, H.
Qed.

Lemma lookup_None_not_In {A} (o : list (string * A)) k : lookup o k = None -> ~ In k (keys o).
Proof.
  induction o as [|[k' v'] r IH]; simpl; intros H; [intros []|].
  destruct (String.eqb_spec k k') as [->|Hne]; [discriminate H|].
  intros [->|Hin]; [apply Hne; reflexivity|exact (IH H Hin)].
Qed.

Lemma get_spread_keys (old : js) k :
  In k (keys (spread_js [] old)) -> get old k <> None.
Proof.
  destruct old; cbn; intros H; try contradiction;
    try destruct (String.eqb k "length"); discriminate.
Qed.

Lemma mergeThemes_no_throw_aux (new : js) :
  forall old, match new with
  | JObj nl => merge_safe old new = true -> exists r, mergeThemes old new = Some (JObj r)
  | _ => True
  end.
Proof.
  induction new as [| | | | |nl IH] using js_ind'; intros old; try exact I.
  intros Hsafe. rewrite mergeThemes_obj.
  destruct (fold_merge_step_Some (merge_value old nl)
             (keys (spread_js (spread_js [] old) (JObj nl))) []) as [r Hr].
  - intros k Hk. unfold merge_value.
    destruct (lookup nl k) as [v|] eqn:Hl.
    + apply lookup_In in Hl. simpl in Hsafe. rewrite forallb_forall in Hsafe.
      specialize (Hsafe _ Hl). rewrite Forall_forall in IH. specialize (IH _ Hl).
      cbn [fst snd] in Hsafe, IH.
      assert (Hleaf : (truthy v || match get old k with Some _ => true | None => false end) = true ->
                      (if truthy v then Some v else get old k) <> None)
        by (destruct (truthy v), (get old k); simpl; congruence).
      destruct v as [| | | | |o']; try exact (Hleaf Hsafe).
      destruct (get old k) as [o|]; [|discriminate Hsafe].
      destruct (IH o Hsafe) as [r' Hr']. cbn [bind]. rewrite Hr'. discriminate.
    + cbn [spread_js] in Hk. rewrite in_keys_spread in Hk.
      destruct Hk as [Hk|Hk]; [|exact (False_ind _ (lookup_None_not_In _ _ Hl Hk))].
      apply get_spread_keys, Hk.
  - rewrite Hr. exists r. reflexivity.
Qed.

(** [mergeThemes] returns an object, never throwing, whenever [merge_safe]
    holds for the pair: every object-valued override sits on an old value
    that can be read ([oldThemeObject[key]] is not a read of [undefined] or
    [null]) and is itself safe, and every falsy leaf override sits on a
    readable old value.  Truthy leaves may override anything, even an
    [undefined] old theme. *)
Theorem mergeThemes_no_throw (old : js) (nl : list (string * js)) :
  merge_safe old (JObj nl) = true -> exists r, mergeThemes old (JObj nl) = Some (JObj r).
Proof. exact (mergeThemes_no_throw_aux (JObj nl) old). Qed.

Lemma mergeThemes_no_throw_witness :
  merge_safe JUndef (JObj [("text", JStr "#fff")]) = true /\
  exists r, mergeThemes JUndef (JObj [("text", JStr "#fff")]) = Some (JObj r).
Proof. split; [reflexivity|]. apply mergeThemes_no_throw. reflexivity. Defined.

Lemma In_keys_lookup {A} (o : list (string * A)) k v : lookup o k = Some v -> In k (keys o).
Proof. intros H. apply lookup_In in H. exact (in_map fst _ _ H). Qed.

(** A truthy leaf of the override (a non-empty string, a non-zero number,
    [true]) replaces whatever the old theme holds under its key. *)
Theorem mergeThemes_truthy_leaf (ol nl r : list (string * js)) k v :
  mergeThemes (JObj ol) (JObj nl) = Some (JObj r) ->
  lookup nl k = Some v -> truthy v = true -> (forall o, v <> JObj o) ->
  lookup r k = Some v.
Proof.
  intros Hm Hl Ht Hno.
  rewrite (mergeThemes_lookup _ _ _ Hm k) by (right; exact (In_keys_lookup _ _ _ Hl)).
  unfold merge_value. rewrite Hl.
  destruct v as [| | | | |o]; try (rewrite Ht; reflexivity). exfalso. exact (Hno o eq_refl).
Qed.

Lemma mergeThemes_truthy_leaf_witness :
  lookup [("bg", JStr "#000"); ("fg", JStr "#fff")] "fg" = Some (JStr "#fff").
Proof.
  apply (mergeThemes_truthy_leaf [("fg", JStr "#111")] [("bg", JStr "#000"); ("fg", JStr "#fff")]
           [("fg", JStr "#fff"); ("bg", JStr "#000")] "fg" (JStr "#fff")).
  - reflexivity.
  - reflexivity.
  - reflexivity.
  - discriminate.
Defined.

(** A falsy leaf of the override ([""], [0], [false], [null], [undefined])
    does not override: the key keeps the old theme's value, or becomes
    [undefined] when the old theme has none. *)
Theorem mergeThemes_falsy_leaf (ol nl r : list (string * js)) k v :
  mergeThemes (JObj ol) (JObj nl) = Some (JObj r) ->
  lookup nl k = Some v -> truthy v = false ->
  lookup r k = Some (match lookup ol k with Some w => w | None => JUndef end).
Proof.
  intros Hm Hl Ht.
  rewrite (mergeThemes_lookup _ _ _ Hm k) by (right; exact (In_keys_lookup _ _ _ Hl)).
  unfold merge_value. rewrite Hl.
  destruct v as [| | | | |o]; try (rewrite Ht; reflexivity). discriminate Ht.
Qed.

Lemma mergeThemes_falsy_leaf_witness :
  lookup [("fg", JStr "#111"); ("bg", JUndef)] "fg" = Some (JStr "#111") /\
  lookup [("fg", JStr "#111"); ("bg", JUndef)] "bg" = Some JUndef.
Proof.
  split.
  - apply (mergeThemes_falsy_leaf [("fg", JStr "#111")] [("fg", JStr ""); ("bg", JNum 0)]
             [("fg", JStr "#111"); ("bg", JUndef)] "fg" (JStr "")); reflexivity.
  - apply (mergeThemes_falsy_leaf [("fg", JStr "#111")] [("fg", JStr ""); ("bg", JNum 0)]
             [("fg", JStr "#111"); ("bg", JUndef)] "bg" (JNum 0)); reflexivity.
Defined.

(** A key the override does not mention keeps the old theme's value,
    whatever that value is (a subtree included). *)
Theorem mergeThemes_old_only (ol nl r : list (string * js)) k w :
  mergeThemes (JObj ol) (JObj nl) = Some (JObj r) ->
  lookup nl k = None -> lookup ol k = Some w -> lookup r k = Some w.
Proof.
  intros Hm Hn Ho.
  rewrite (mergeThemes_lookup _ _ _ Hm k) by (left; exact (In_keys_lookup _ _ _ Ho)).
  unfold merge_value. rewrite Hn. simpl. rewrite Ho. reflexivity.
Qed.

Lemma mergeThemes_old_only_witness :
  lookup [("space", JObj [("s", JNum 4)]); ("fg", JStr "#fff")] "space" = Some (JObj [("s", JNum 4)]).
Proof.
  apply (mergeThemes_old_only [("space", JObj [("s", JNum 4)]); ("fg", JStr "#111")]
           [("fg", JStr "#fff")] [("space", JObj [("s", JNum 4)]); ("fg", JStr "#fff")]
           "space" (JObj [("s", JNum 4)])); reflexivity.
Defined.

(** An object under a key of the override is merged, by the same function,
    into the old theme's value under that key. *)
Theorem mergeThemes_subtree (ol nl r o : list (string * js)) k :
  mergeThemes (JObj ol) (JObj nl) = Some (JObj r) ->
  lookup nl k = Some (JObj o) ->
  lookup r k = mergeThemes (match lookup ol k with Some w => w | None => JUndef end) (JObj o).
Proof.
  intros Hm Hl.
  rewrite (mergeThemes_lookup _ _ _ Hm k) by (right; exact (In_keys_lookup _ _ _ Hl)).
  unfold merge_value. rewrite Hl. reflexivity.
Qed.

Lemma mergeThemes_subtree_witness :
  lookup [("colors", JObj [("text", JStr "#fff"); ("bg", JStr "#000")])] "colors"
  = mergeThemes (JObj [("text", JStr "#111"); ("bg", JStr "#000")]) (JObj [("text", JStr "#fff")]).
Proof.
  apply (mergeThemes_subtree [("colors", JObj [("text", JStr "#111"); ("bg", JStr "#000")])]
           [("colors", JObj [("text", JStr "#fff")])]
           [("colors", JObj [("text", JStr "#fff"); ("bg", JStr "#000")])]
           [("text", JStr "#fff")] "colors"); reflexivity.
Defined.

Lemma fold_merge_step_all F G ks acc :
  (forall k, In k ks -> F k = Some (G k)) ->
  fold_left (merge_step F) ks (Some acc) = Some (fold_left (fun a k => set_key a k (G k)) ks acc).
Proof.
  revert acc. induction ks as [|k0 ks IH]; intros acc H; simpl; [reflexivity|].
  change (merge_step F (Some acc) k0) with (v <- F k0 ;; Some (set_key acc k0 v)).
  rewrite (H k0 (or_introl eq_refl)). cbn [bind].
  apply IH. intros k Hk. apply H. right. exact Hk.
Qed.

Lemma map_lookup_keys (ol : list (string * js)) :
  NoDup (keys ol) ->
  map (fun k => (k, match lookup ol k with Some w => w | None => JUndef end)) (keys ol) = ol.
Proof.
  induction ol as [|[k v] r IH]; intros Hnd; [reflexivity|].
  inversion Hnd as [|? ? Hn Hr]; subst. simpl. rewrite String.eqb_refl. f_equal.
  rewrite <- (IH Hr) at 2. apply map_ext_in. intros k' Hk'.
  destruct (String.eqb_spec k' k) as [->|]; [contradiction|reflexivity].
Qed.

(** Merging the empty override [{}] into an old theme copies it: same keys
    in the same order, same values. *)
Theorem mergeThemes_empty_override (ol : list (string * js)) :
  NoDup (keys ol) -> mergeThemes (JObj ol) (JObj []) = Some (JObj ol).
Proof.
  intros Hnd. rewrite mergeThemes_obj. cbn [spread_js].
  assert (spread (spread [] ol) [] = ol) as ->
    by (rewrite (spread_app [] ol) by exact Hnd; reflexivity).
  rewrite (fold_merge_step_all _ (fun k => match lookup ol k with Some w => w | None => JUndef end))
    by (intros k _; reflexivity).
  cbn [bind]. do 2 f_equal.
  rewrite (fold_set_key_app _ (fun k => k) (fun k => match lookup ol k with Some w => w | None => JUndef end));
    [|reflexivity|rewrite map_id; exact Hnd].
  apply map_lookup_keys, Hnd.
Qed.

Lemma mergeThemes_empty_override_witness :
  NoDup (keys [("colors", JObj [("text", JStr "#111")]); ("space", JNum 4)]) /\
  mergeThemes (JObj [("colors", JObj [("text", JStr "#111")]); ("space", JNum 4)]) (JObj [])
  = Some (JObj [("colors", JObj [("text", JStr "#111")]); ("space", JNum 4)]).
Proof.
  assert (Hnd : NoDup (keys [("colors", JObj [("text", JStr "#111")]); ("space", JNum 4)])).
  { simpl. constructor; [simpl; intros [H|[]]; discriminate H|constructor; [intros []|constructor]]. }
  split; [exact Hnd|]. apply mergeThemes_empty_override, Hnd.
Defined.

Lemma fold_None {A B} (f : option A -> B -> option A) (l : list B) :
  (forall b, f None b = None) -> fold_left f l None = None.
Proof. intros H. induction l as [|b l IH]; simpl; [reflexivity|rewrite H; exact IH]. Qed.

(** A missing override, [undefined] or [null], throws as soon as the old
    theme has a key: [newThemeObject[key]] is read for every key of
    [{...oldThemeObject, ...newThemeObject}]. *)
Theorem mergeThemes_missing_override (ol : list (string * js)) (x : js) :
  x = JUndef \/ x = JNull -> ol <> [] -> mergeThemes (JObj ol) x = None.
Proof.
  intros Hx Hne. destruct ol as [|[k v] ol]; [contradiction|].
  assert (Hin : In k (keys (spread [] ((k, v) :: ol))))
    by (apply in_keys_spread; right; left; reflexivity).
  destruct Hx as [-> | ->]; cbn [mergeThemes spread_js];
    destruct (keys (spread [] ((k, v) :: ol))) as [|k0 ks]; try contradiction;
    simpl; rewrite fold_None; reflexivity.
Qed.

Lemma mergeThemes_missing_override_witness :
  mergeThemes (JObj [("colors", JObj [("text", JStr "#111")])]) JUndef = None.
Proof.
  apply mergeThemes_missing_override; [left; reflexivity|discriminate].
Defined.

Lemma keys_spread_add_key {A} (acc o : list (string * A)) :
  keys (spread acc o) = fold_left add_key (keys o) (keys acc).
Proof.
  unfold spread. revert acc. induction o as [|[k v] o IH]; intros acc; [reflexivity|].
  simpl. rewrite IH, keys_set_key. reflexivity.
Qed.

Lemma fold_add_key (l a : list string) :
  NoDup l -> fold_left add_key l a = (a ++ filter (fun k => negb (existsb (String.eqb k) a)) l)%list.
Proof.
  revert a. induction l as [|k l IH]; intros a Hnd; simpl; [rewrite app_nil_r; reflexivity|].
  inversion Hnd as [|? ? Hn Hr]; subst. rewrite IH by exact Hr. unfold add_key.
  destruct (existsb (String.eqb k) a) eqn:E; simpl; [reflexivity|].
  rewrite <- app_assoc. simpl. f_equal. f_equal. apply filter_ext_in. intros k' Hk'.
  rewrite existsb_app. simpl. destruct (String.eqb_spec k' k) as [->|]; [contradiction|].
  rewrite orb_false_r. reflexivity.
Qed.

(** The keys of the merged theme, in order: the old theme's keys, then the
    override's keys the old theme lacks, as in [{...old, ...new}], for
    keys that are not strings of digits (JS moves integer-like keys to
    the front in numeric order). *)
Theorem mergeThemes_keys (ol nl r : list (string * js)) :
  forallb (fun k => negb (index_like k)) (keys ol ++ keys nl) = true ->
  NoDup (keys ol) -> NoDup (keys nl) ->
  mergeThemes (JObj ol) (JObj nl) = Some (JObj r) ->
  keys r = (keys ol ++ filter (fun k => negb (existsb (String.eqb k) (keys ol))) (keys nl))%list.
Proof.
  intros _ Hndo Hndn Hm. rewrite mergeThemes_obj in Hm.
  destruct (fold_left _ _ _) as [r'|] eqn:Hf; [|discriminate Hm].
  injection Hm as <-. rewrite (fold_merge_step_keys _ _ _ _ Hf). cbn [spread_js].
  rewrite (spread_app [] ol) by exact Hndo. cbn [app].
  rewrite fold_add_key.
  - cbn [app existsb filter negb]. rewrite filter_true. rewrite keys_spread_add_key, (fold_add_key (keys nl) (keys ol) Hndn).
    reflexivity.
  - apply NoDup_keys_spread, Hndo.
Qed.

Lemma mergeThemes_keys_witness :
  keys [("colors", JObj [("text", JStr "#fff")]); ("space", JNum 4); ("fonts", JStr "serif")]
  = ["colors"; "space"; "fonts"].
Proof.
  assert (Hnd1 : NoDup (keys [("colors", JObj [("text", JStr "#111")]); ("space", JNum 4)])).
  { simpl. constructor; [simpl; intros [H|[]]; discriminate H|constructor; [intros []|constructor]]. }
  assert (Hnd2 : NoDup (keys [("fonts", JStr "serif"); ("colors", JObj [("text", JStr "#fff")])])).
  { simpl. constructor; [simpl; intros [H|[]]; discriminate H|constructor; [intros []|constructor]]. }
  exact (mergeThemes_keys [("colors", JObj [("text", JStr "#111")]); ("space", JNum 4)]
           [("fonts", JStr "serif"); ("colors", JObj [("text", JStr "#fff")])] _ eq_refl Hnd1 Hnd2 eq_refl).
Defined.

(* ------------------------------------------------------------------ *)
(** ** The naming rule of jsNameToCssName *)

Lemma substring_zero (n : nat) (s : string) : String.substring n 0 s = "".
Proof. revert s. induction n as [|n IH]; intros [|c s]; simpl; auto. Qed.

Lemma substring_full (s : string) : String.substring 0 (String.length s) s = s.
Proof. induction s as [|c s IH]; simpl; [reflexivity|rewrite IH; reflexivity]. Qed.

Lemma get_lt (q : nat) (s : string) : (q < String.length s)%nat -> exists c, String.get q s = Some c.
Proof.
  revert s. induction q as [|q IH]; intros [|c s] H; simpl in *; try lia.
  - exists c. reflexivity.
  - apply IH. lia.
Qed.

Lemma substring_snoc (p n : nat) (s : string) c :
  String.get (p + n) s = Some c ->
  String.substring p (Datatypes.S n) s = String.substring p n s ++ String c "".
Proof.
  revert p s. induction n as [|n IHn]; intros p s.
  - revert s. induction p as [|p IHp]; intros [|c' s] H; simpl in *; try discriminate.
    + injection H as ->. rewrite substring_zero. reflexivity.
    + apply IHp. rewrite Nat.add_0_r in H. rewrite Nat.add_0_r. exact H.
  - revert s. induction p as [|p IHp]; intros [|c' s] H; simpl in *; try discriminate.
    + rewrite (IHn 0 s H). reflexivity.
    + apply IHp. exact H.
Qed.

Lemma substring_cons (q m : nat) (s : string) c :
  String.get q s = Some c ->
  String.substring q (Datatypes.S m) s = String c (String.substring (Datatypes.S q) m s).
Proof.
  revert s. induction q as [|q IH]; intros [|c' s] H; simpl in *; try discriminate.
  - injection H as ->. destruct s; destruct m; reflexivity.
  - apply IH, H.
Qed.

Lemma split_loop_nonempty S p q fuel : split_loop S p q fuel <> [].
Proof.
  revert p q. induction fuel as [|fuel IH]; intros p q; simpl; [discriminate|].
  destruct (Nat.ltb q (String.length S)); [|discriminate].
  destruct (lookahead_at S q); [|apply IH].
  destruct (Nat.eqb q p); [apply IH|discriminate].
Qed.

Lemma join_cons sep x r : r <> [] -> join sep (x :: r) = x ++ sep ++ join sep r.
Proof. destruct r; [contradiction|reflexivity]. Qed.

Lemma split_loop_hyphenate S p q fuel :
  (p <= q <= String.length S)%nat ->
  (fuel + (if Nat.eqb q p then 1 else 0) >= 2 * (String.length S - q) + 1)%nat ->
  join "-" (split_loop S p q fuel) =
  slice S p q ++ hyphenate_boundaries (Nat.eqb q p) (String.substring q (String.length S - q) S).
Proof.
  revert p q. induction fuel as [|fuel IH]; intros p q Hpq Hf.
  - destruct (Nat.eqb_spec q p); [|lia]. subst q. assert (p = String.length S) by lia. subst p.
    simpl. unfold slice. rewrite Nat.sub_diag, !substring_zero. reflexivity.
  - simpl. destruct (Nat.ltb_spec q (String.length S)) as [Hq|Hq].
    + destruct (get_lt q S Hq) as [c Hc].
      assert (Hsuf : String.substring q (String.length S - q) S
                     = String c (String.substring (Datatypes.S q) (String.length S - Datatypes.S q) S)).
      { replace (String.length S - q)%nat with (Datatypes.S (String.length S - Datatypes.S q)) by lia.
        apply substring_cons, Hc. }
      assert (Hslice : slice S p (Datatypes.S q) = slice S p q ++ String c "").
      { unfold slice. replace (Datatypes.S q - p)%nat with (Datatypes.S (q - p)) by lia.
        apply substring_snoc. replace (p + (q - p))%nat with q by lia. exact Hc. }
      assert (Hpp : slice S q q = "") by (unfold slice; rewrite Nat.sub_diag; apply substring_zero).
      unfold lookahead_at. rewrite Hc. destruct (is_boundary c) eqn:Hb.
      * destruct (Nat.eqb_spec q p) as [->|Hne].
        -- rewrite IH by (try (destruct (Nat.eqb_spec (Datatypes.S p) p); lia); lia).
           assert (Nat.eqb (Datatypes.S p) p = false) as -> by (apply Nat.eqb_neq; lia).
           rewrite Hsuf, Hslice, Hpp. simpl. rewrite Hb. reflexivity.
        -- rewrite join_cons by apply split_loop_nonempty.
           rewrite IH by (try rewrite Nat.eqb_refl; lia).
           rewrite Nat.eqb_refl, Hpp, Hsuf. simpl. rewrite Hb. reflexivity.
      * rewrite IH by (destruct (Nat.eqb_spec (Datatypes.S q) p); destruct (Nat.eqb_spec q p); lia).
        assert (Nat.eqb (Datatypes.S q) p = false) as -> by (apply Nat.eqb_neq; lia).
        rewrite Hsuf, Hslice, <- string_append_assoc. simpl. rewrite Hb. reflexivity.
    + assert (q = String.length S) as -> by lia. rewrite Nat.sub_diag, substring_zero.
      simpl. rewrite string_append_nil_r. reflexivity.
Qed.

Lemma jsNameToCssName_hyphenate_aux (name : string) :
  jsNameToCssName name = toLowerCase (hyphenate_boundaries true name).
Proof.
  unfold jsNameToCssName, split_boundary.
  destruct (Nat.eqb_spec (String.length name) 0) as [H0|H0].
  - destruct name; [reflexivity|discriminate H0].
  - rewrite (split_loop_hyphenate name 0 0) by (simpl; lia).
    unfold slice. rewrite !Nat.sub_0_r, substring_zero, substring_full. reflexivity.
Qed.

(** [jsNameToCssName] is the one-pass rule: a hyphen goes before every
    uppercase letter, underscore or space except a leading one, nothing is
    removed, and the whole name is lowercased afterwards.  So an underscore
    or a space is kept next to the hyphen put before it. *)
Theorem jsNameToCssName_hyphenate (name : string) :
  jsNameToCssName name = toLowerCase (hyphenate_boundaries true name).
Proof. exact (jsNameToCssName_hyphenate_aux name). Qed.

Lemma hyphenate_no_boundary (b : bool) (s : string) :
  no_boundary s = true -> hyphenate_boundaries b s = s.
Proof.
  revert b. induction s as [|c s IH]; intros b H; simpl in *; [reflexivity|].
  apply andb_prop in H as [Hc Hs]. apply negb_true_iff in Hc. rewrite Hc, (IH false Hs). reflexivity.
Qed.

Lemma toLowerCase_no_boundary (s : string) : no_boundary s = true -> toLowerCase s = s.
Proof.
  induction s as [|c s IH]; intros H; simpl in *; [reflexivity|].
  apply andb_prop in H as [Hc Hs]. apply negb_true_iff in Hc. rewrite (IH Hs). f_equal.
  unfold is_boundary in Hc. unfold lower_ascii.
  destruct ((65 <=? nat_of_ascii c) && (nat_of_ascii c <=? 90))%nat; [|reflexivity].
  discriminate Hc.
Qed.

(** A key with no uppercase letter, underscore or space (lowercase words,
    digits, hyphens) becomes its CSS name unchanged. *)
Theorem jsNameToCssName_verbatim (name : string) :
  no_boundary name = true -> jsNameToCssName name = name.
Proof.
  intros H. rewrite jsNameToCssName_hyphenate_aux, hyphenate_no_boundary by exact H.
  apply toLowerCase_no_boundary, H.
Qed.

Lemma jsNameToCssName_verbatim_witness :
  no_boundary "bg-color2" = true /\ jsNameToCssName "bg-color2" = "bg-color2".
Proof. split; [reflexivity|apply jsNameToCssName_verbatim; reflexivity]. Defined.

(* ------------------------------------------------------------------ *)
(** ** Names of nested variables *)

Lemma lookup_map_pair {A B} (f : string * A -> B) (l : list (string * A)) k :
  lookup (map (fun kv => (fst kv, f kv)) l) k = option_map (fun v => f (k, v)) (lookup l k).
Proof.
  induction l as [|[k' v] r IH]; simpl; [reflexivity|].
  destruct (String.eqb_spec k k') as [->|]; [reflexivity|exact IH].
Qed.

(** The variable of a leaf one level down is named from its parent's key
    as written, then a hyphen, then its own key through [jsNameToCssName]:
    only the leaf's own key is converted (under ["myColors"], the key
    ["textColor"] gives ["--myColors-text-color"], while a top-level leaf
    ["myColors"] gives ["--my-colors"]). *)
Theorem nested_var_name (kvs sub : list (string * theme)) (p c : string) (t : theme) :
  NoDup (keys kvs) -> NoDup (keys sub) -> p <> "" ->
  lookup kvs p = Some (TObj sub) -> lookup sub c = Some t ->
  match lookup (makeObjectVariables kvs "" "") p with
  | Some (VSub inner _ _) => option_map var_of (lookup inner c) = Some ("--" ++ p ++ "-" ++ jsNameToCssName c)
  | _ => False
  end.
Proof.
  intros Hnd Hnds Hp Hl Hc.
  rewrite (makeObjectVariables_map kvs) by exact Hnd.
  rewrite lookup_map_pair, Hl. simpl option_map. unfold mov_node. cbn [fst snd].
  change (makeObjectVariables_t (TObj sub) (prefixStr_of "" ++ p) "")
    with (makeObjectVariables sub (prefixStr_of "" ++ p) "").
  rewrite (makeObjectVariables_map sub) by exact Hnds.
  rewrite lookup_map_pair, Hc. simpl option_map. f_equal.
  unfold mov_node. cbn [fst snd].
  assert (Hv : forall nm, var_of (match t with
                | TStr s => VLeaf s ("--" ++ nm) ("var(--" ++ nm ++ ")")
                | TObj _ => VSub (makeObjectVariables_t t (prefixStr_of (prefixStr_of "" ++ p) ++ c) "")
                              ("--" ++ nm) ("var(--" ++ nm ++ ")")
                end) = "--" ++ nm) by (intros nm; destruct t; reflexivity).
  rewrite Hv. unfold prefixStr_of, suffixStr_of. simpl.
  destruct (String.eqb_spec p "") as [|_]; [contradiction|].
  rewrite string_append_nil_r, <- string_append_assoc. reflexivity.
Qed.

Lemma nested_var_name_witness :
  match lookup (makeObjectVariables [("myColors", TObj [("textColor", TStr "#fff")])] "" "") "myColors" with
  | Some (VSub inner _ _) => option_map var_of (lookup inner "textColor") = Some "--myColors-text-color"
  | _ => False
  end.
Proof.
  apply (nested_var_name [("myColors", TObj [("textColor", TStr "#fff")])] [("textColor", TStr "#fff")]
           "myColors" "textColor" (TStr "#fff")).
  - constructor; [intros []|constructor].
  - constructor; [intros []|constructor].
  - discriminate.
  - reflexivity.
  - reflexivity.
Defined.
